(** * ExamExtract-AI: the document pipeline, embedded and verified

    A shallow embedding of the pure and state-passing parts of
    [services/documentProcessor.ts] (batches, PDF pages, HTML chunks),
    [services/geminiService.ts] (the extraction client, without and with
    retries) and [App.tsx] (the sequential orchestrator, the orchestrator
    with groups, waves and cancellation, and the result store), followed by
    the properties the specification states about them.

    Conventions
    - A JavaScript string is a sequence of 16-bit code units.  It is modelled
      as a [string], one [ascii] per code unit, which covers the code units
      0..255.  Lengths are counted in code units, as [String.length] does.
    - A JavaScript object read as a dictionary is a [gmap string JsValue].
    - A promise that settles is the value it settles to: [inr v] when it
      fulfils with [v], [inl e] when it rejects with [e].
    - What the program asks of its surroundings (the PDF library, the canvas,
      the model's answers, [JSON.parse], [crypto.randomUUID]) is a parameter
      of the definitions; the theorems hold for every value of it. *)

From Stdlib Require Import Ascii String ZArith Lia.
From stdpp Require Import gmap strings list pretty.
From Equations Require Import Equations.
From Equations.Prop Require Import Logic.

Set Warnings "-abstract-large-number".
Local Open Scope nat_scope.

(** ** JavaScript string primitives *)

Module JsString.

(** [s.length] *)
Definition length (s : string) : nat := String.length s.

(** [a + b] on strings is [a +:+ b]; the facts used about it. *)
Lemma append_nil_l (s : string) : "" +:+ s = s.
Proof. reflexivity. Qed.

Lemma append_cons (c : ascii) (s t : string) :
  String c s +:+ t = String c (s +:+ t).
Proof. reflexivity. Qed.

Lemma append_nil_r (s : string) : s +:+ "" = s.
Proof.
  induction s as [|c s IH]; [done |]. by rewrite append_cons, IH.
Qed.

Lemma append_assoc (a b c : string) : (a +:+ b) +:+ c = a +:+ (b +:+ c).
Proof.
  induction a as [|x a IH]; [done |]. by rewrite !append_cons, IH.
Qed.

Lemma length_append (a b : string) :
  length (a +:+ b) = length a + length b.
Proof.
  induction a as [|x a IH]; [done |].
  rewrite append_cons. unfold length in *. simpl. by rewrite IH.
Qed.

Lemma length_zero (s : string) : length s = 0 -> s = "".
Proof. by destruct s. Qed.

(** [Array.prototype.join('')]: the concatenation of a list of strings. *)
Fixpoint concat (l : list string) : string :=
  match l with
  | [] => ""
  | s :: l' => s +:+ concat l'
  end.

Lemma concat_app (l1 l2 : list string) :
  concat (l1 ++ l2) = concat l1 +:+ concat l2.
Proof.
  induction l1 as [|s l1 IH]; simpl; [done |].
  by rewrite IH, append_assoc.
Qed.

Lemma concat_singleton (s : string) : concat [s] = s.
Proof. simpl. apply append_nil_r. Qed.

Create Rewrite HintDb jsstring.
#[export] Hint Rewrite append_nil_l append_nil_r append_assoc
  concat_app concat_singleton length_append : jsstring.

(** [l.join(sep)] *)
Fixpoint join (sep : string) (l : list string) : string :=
  match l with
  | [] => ""
  | [s] => s
  | s :: l' => s +:+ sep +:+ join sep l'
  end.

(** [strip_prefix p s] is [Some r] when [s = p + r]: the test
    [s.startsWith(p)] together with the rest of [s]. *)
Fixpoint strip_prefix (p s : string) : option string :=
  match p, s with
  | EmptyString, _ => Some s
  | String a p', String b s' =>
      if Ascii.eqb a b then strip_prefix p' s' else None
  | String _ _, EmptyString => None
  end.

Lemma strip_prefix_Some (p s r : string) :
  strip_prefix p s = Some r -> s = p +:+ r.
Proof.
  revert s; induction p as [|a p IH]; intros s H; simpl in *.
  - by injection H as ->.
  - destruct s as [|b s]; [done |].
    destruct (Ascii.eqb a b) eqn:E; [| done].
    apply Ascii.eqb_eq in E. subst b. rewrite append_cons. f_equal.
    by apply IH.
Qed.

Lemma strip_prefix_append (p r : string) : strip_prefix p (p +:+ r) = Some r.
Proof.
  induction p as [|a p IH]; [done |].
  rewrite append_cons. simpl. by rewrite Ascii.eqb_refl.
Qed.

(** [s.includes(sub)] *)
Fixpoint includes (s sub : string) : bool :=
  match strip_prefix sub s with
  | Some _ => true
  | None =>
      match s with
      | EmptyString => false
      | String _ s' => includes s' sub
      end
  end.

(** [s.split(sep)] for a separator [sep = c0 + sep'] that is not empty:
    the pieces between the leftmost non-overlapping occurrences of the
    separator; [acc] is the piece being read. *)
Equations? split_from (c0 : ascii) (sep' : string) (acc s : string) :
  list string by wf (String.length s) lt :=
  split_from c0 sep' acc EmptyString := [acc];
  split_from c0 sep' acc (String c s')
    with inspect (strip_prefix (String c0 sep') (String c s')) := {
    | exist _ (Some rest) _ => acc :: split_from c0 sep' "" rest;
    | exist _ None _ => split_from c0 sep' (acc +:+ String c "") s' }.
Proof.
  - apply (strip_prefix_Some (String c0 sep') (String c s')) in e.
    apply (f_equal length) in e.
    rewrite length_append in e. unfold length in e. simpl in *. lia.
Qed.

(** [s.split(sep)]; with the empty separator JavaScript cuts between all
    code units. *)
Fixpoint code_units (s : string) : list string :=
  match s with
  | EmptyString => []
  | String c s' => String c "" :: code_units s'
  end.

Definition split (sep s : string) : list string :=
  match sep with
  | EmptyString => code_units s
  | String c0 sep' => split_from c0 sep' "" s
  end.

(** [s.replace(/pat/g, '')] for a pattern that is a literal, non-empty
    string: the leftmost non-overlapping occurrences are taken out. *)
Definition remove_all (pat s : string) : string := concat (split pat s).

(** White space for [trim], among the code units 0..255: TAB, LF, VT, FF,
    CR, SPACE and NO-BREAK SPACE. *)
Definition is_whitespace (c : ascii) : bool :=
  let n := nat_of_ascii c in
  ((9 <=? n) && (n <=? 13)) || (n =? 32) || (n =? 160).

Fixpoint trimStart (s : string) : string :=
  match s with
  | EmptyString => EmptyString
  | String c s' => if is_whitespace c then trimStart s' else s
  end.

Fixpoint trimEnd (s : string) : string :=
  match s with
  | EmptyString => EmptyString
  | String c s' =>
      match trimEnd s' with
      | EmptyString => if is_whitespace c then EmptyString else String c ""
      | t => String c t
      end
  end.

(** [s.trim()] *)
Definition trim (s : string) : string := trimEnd (trimStart s).

(** [s.toUpperCase()], exact on the code units 0..127: [a]..[z] become
    [A]..[Z].  The code units 128..255 are left as they are; JavaScript
    maps some of them elsewhere (to other letters, one of them to [SS]),
    none of them to a letter [A]..[E], so what [/[^A-E]/g] keeps of the
    result is the same. *)
Definition toUpperCase_unit (c : ascii) : ascii :=
  let n := nat_of_ascii c in
  if (97 <=? n) && (n <=? 122) then ascii_of_nat (n - 32) else c.

Fixpoint toUpperCase (s : string) : string :=
  match s with
  | EmptyString => EmptyString
  | String c s' => String (toUpperCase_unit c) (toUpperCase s')
  end.

(** The character class [[A-E]] *)
Definition in_A_to_E (c : ascii) : bool :=
  let n := nat_of_ascii c in (65 <=? n) && (n <=? 69).

(** [s.replace(/[^A-E]/g, '')]: every code unit outside [A]..[E] is taken
    out, the others stay, in order. *)
Fixpoint remove_non_A_to_E (s : string) : string :=
  match s with
  | EmptyString => EmptyString
  | String c s' =>
      if in_A_to_E c then String c (remove_non_A_to_E s')
      else remove_non_A_to_E s'
  end.

(** *** Facts about [split] and [join] *)

Lemma split_from_nonempty (c0 : ascii) (sep' acc s : string) :
  split_from c0 sep' acc s <> [].
Proof. funelim (split_from c0 sep' acc s); simp split_from; try done. Qed.

Lemma join_cons (sep s : string) (l : list string) :
  l <> [] -> join sep (s :: l) = s +:+ sep +:+ join sep l.
Proof. by destruct l. Qed.

(** Joining the pieces with the separator gives the string back. *)
Lemma join_split_from (c0 : ascii) (sep' acc s : string) :
  join (String c0 sep') (split_from c0 sep' acc s) = acc +:+ s.
Proof.
  funelim (split_from c0 sep' acc s); simp split_from.
  - simpl. by rewrite append_nil_r.
  - rewrite join_cons by apply split_from_nonempty.
    match goal with IH : join _ _ = _ +:+ _ |- _ => rewrite IH end.
    by rewrite (strip_prefix_Some (String c0 sep') (String c s') rest e).
  - match goal with IH : join _ _ = _ +:+ _ |- _ => rewrite IH end.
    by rewrite append_assoc.
Qed.

Lemma join_split (c0 : ascii) (sep' s : string) :
  join (String c0 sep') (split (String c0 sep') s) = s.
Proof. unfold split. by rewrite join_split_from. Qed.

End JsString.

(** ** [services/documentProcessor.ts]: splitting converted HTML *)

Module Chunker.
Import JsString.

(** The loop of [chunkHtmlContent]: [parts] is what remains of the array
    from index [i] on, [n] is [parts.length] of the whole array, and the
    pair is [(chunks, currentChunk)].  A number [maxChunkSize] that is not
    an integer compares with a length as its integer part does, so a
    natural number stands for it. *)
Fixpoint chunk_loop (maxChunkSize n i : nat) (parts : list string)
    (chunks : list string) (currentChunk : string) :
    list string * string :=
  match parts with
  | [] => (chunks, currentChunk)
  | p :: rest =>
      let part := if i <? n - 1 then p +:+ "</p>" else p in
      if maxChunkSize <? length currentChunk + length part then
        if 0 <? length currentChunk
        then chunk_loop maxChunkSize n (S i) rest
               (chunks ++ [currentChunk]) part
        else chunk_loop maxChunkSize n (S i) rest (chunks ++ [part]) ""
      else chunk_loop maxChunkSize n (S i) rest chunks
             (currentChunk +:+ part)
  end.

Definition chunkHtmlContent (html : string) (maxChunkSize : nat) :
    list string :=
  if length html <=? maxChunkSize then [html]
  else
    let parts := split "</p>" html in
    let '(chunks, currentChunk) :=
      chunk_loop maxChunkSize (List.length parts) 0 parts [] "" in
    if 0 <? length currentChunk then chunks ++ [currentChunk] else chunks.

(** The default of the parameter, used by [processDocxToHtml]. *)
Definition defaultMaxChunkSize : nat := 30000.

(** *** The paragraphs of a document

    The unit the loop packs: [parts[i]] with the closing tag put back,
    except after the last piece. *)
Fixpoint paragraphs_from (n i : nat) (parts : list string) : list string :=
  match parts with
  | [] => []
  | p :: rest =>
      (if i <? n - 1 then p +:+ "</p>" else p)
        :: paragraphs_from n (S i) rest
  end.

Definition paragraphs (html : string) : list string :=
  let parts := split "</p>" html in
  paragraphs_from (List.length parts) 0 parts.

(** The loop, over paragraphs that already carry their closing tag. *)
Fixpoint pack (maxChunkSize : nat) (ps : list string)
    (chunks : list string) (currentChunk : string) :
    list string * string :=
  match ps with
  | [] => (chunks, currentChunk)
  | part :: rest =>
      if maxChunkSize <? length currentChunk + length part then
        if 0 <? length currentChunk
        then pack maxChunkSize rest (chunks ++ [currentChunk]) part
        else pack maxChunkSize rest (chunks ++ [part]) ""
      else pack maxChunkSize rest chunks (currentChunk +:+ part)
  end.

Lemma chunk_loop_pack (m n i : nat) (parts chunks : list string)
    (cur : string) :
  chunk_loop m n i parts chunks cur
  = pack m (paragraphs_from n i parts) chunks cur.
Proof.
  revert i chunks cur.
  induction parts as [|p rest IH]; intros i chunks cur; simpl; [done |].
  repeat case_match; apply IH.
Qed.

Lemma chunkHtmlContent_unfold (html : string) (m : nat) :
  chunkHtmlContent html m =
    if length html <=? m then [html]
    else let '(chunks, cur) := pack m (paragraphs html) [] "" in
         if 0 <? length cur then chunks ++ [cur] else chunks.
Proof. unfold chunkHtmlContent, paragraphs. by rewrite chunk_loop_pack. Qed.

(** The paragraphs are the document, cut. *)
Lemma concat_paragraphs_from (n i : nat) (parts : list string) :
  i + List.length parts = n ->
  concat (paragraphs_from n i parts) = join "</p>" parts.
Proof.
  revert i. induction parts as [|p rest IH]; intros i Hn; [done |].
  cbn [paragraphs_from concat]. rewrite (IH (S i)) by (simpl in Hn; lia).
  destruct rest as [|q rest].
  - simpl in Hn. replace (i <? n - 1) with false
      by (symmetry; apply Nat.ltb_ge; lia).
    simpl. by rewrite append_nil_r.
  - simpl in Hn. replace (i <? n - 1) with true
      by (symmetry; apply Nat.ltb_lt; lia).
    rewrite (join_cons _ p (q :: rest)) by done. by rewrite append_assoc.
Qed.

Lemma concat_paragraphs (html : string) : concat (paragraphs html) = html.
Proof.
  unfold paragraphs. rewrite concat_paragraphs_from by done.
  apply (join_split "<" "/p>").
Qed.

(** *** What the loop keeps

    Nothing is lost: the chunks closed so far, the open chunk and the
    paragraphs still to read always spell the same text. *)
Lemma pack_concat (m : nat) (ps chunks chunks' : list string)
    (cur cur' : string) :
  pack m ps chunks cur = (chunks', cur') ->
  concat chunks' +:+ cur' = concat chunks +:+ cur +:+ concat ps.
Proof.
  revert chunks cur.
  induction ps as [|part rest IH]; intros chunks cur H; simpl in H.
  - injection H as <- <-. simpl. by autorewrite with jsstring.
  - cbn [concat].
    destruct (m <? length cur + length part);
      [destruct (0 <? length cur) eqn:Hcur0 |];
      apply IH in H; rewrite H.
    + by autorewrite with jsstring.
    + apply Nat.ltb_ge in Hcur0.
      assert (cur = "") as -> by (apply length_zero; lia).
      by autorewrite with jsstring.
    + by autorewrite with jsstring.
Qed.

(** A chunk [c] is a run of whole paragraphs of the document [whole] that
    respects the budget [m], or is one paragraph that alone exceeds it. *)
Definition within_budget (m : nat) (grp : list string) : Prop :=
  length (concat grp) <= m \/ exists p, grp = [p] /\ m < length p.

Definition paragraph_run (m : nat) (whole : list string) (c : string) :
    Prop :=
  exists pre grp post,
    whole = pre ++ grp ++ post /\ c = concat grp /\ within_budget m grp.

Lemma pack_runs (m : nat) (whole ps : list string) :
  forall (pre g chunks chunks' : list string) (cur cur' : string),
    whole = pre ++ g ++ ps ->
    cur = concat g ->
    within_budget m g ->
    Forall (paragraph_run m whole) chunks ->
    pack m ps chunks cur = (chunks', cur') ->
    Forall (paragraph_run m whole) chunks' /\ paragraph_run m whole cur'.
Proof.
  induction ps as [|part rest IH];
    intros pre g chunks chunks' cur cur' Hw Hcur Hg Hall H; simpl in H.
  - injection H as <- <-. split; [done |].
    exists pre, g, []. by rewrite Hw.
  - destruct (m <? length cur + length part) eqn:Hover.
    + apply Nat.ltb_lt in Hover.
      destruct (0 <? length cur) eqn:Hcur0.
      * (* the open chunk is closed, the paragraph opens the next one *)
        apply (IH (pre ++ g) [part]) in H; [done | | | | ].
        -- by rewrite Hw, <- !app_assoc.
        -- simpl. by rewrite append_nil_r.
        -- unfold within_budget. simpl. rewrite append_nil_r.
           destruct (decide (length part <= m)); [by left |].
           right. exists part. split; [done | lia].
        -- apply Forall_app. split; [done |].
           apply Forall_singleton. by exists pre, g, (part :: rest).
      * (* nothing is open: the paragraph is a chunk of its own *)
        apply Nat.ltb_ge in Hcur0.
        apply (IH (pre ++ g ++ [part]) []) in H; [done | | | | ].
        -- by rewrite Hw, <- !app_assoc.
        -- done.
        -- left. simpl. unfold length. simpl. lia.
        -- apply Forall_app. split; [done |].
           apply Forall_singleton. exists (pre ++ g), [part], rest.
           split; [by rewrite Hw, <- !app_assoc |].
           split; [simpl; by rewrite append_nil_r |].
           right. exists part. split; [done | lia].
    + (* the paragraph joins the open chunk *)
      apply Nat.ltb_ge in Hover.
      apply (IH pre (g ++ [part])) in H; [done | | | | done].
      * by rewrite Hw, <- !app_assoc.
      * rewrite concat_app, Hcur. simpl. by rewrite append_nil_r.
      * left. rewrite concat_app. simpl.
        rewrite append_nil_r, length_append, <- Hcur. lia.
Qed.

End Chunker.

(** ** Values thrown and promises *)

Module Js.

(** A thrown value, as far as the handlers look at it: [error.message],
    which may be missing. *)
Record JsError : Type := { message : option string }.

(** [error.message?.includes(s)]: [undefined], which is falsy, when there
    is no message. *)
Definition message_includes (e : JsError) (s : string) : bool :=
  match message e with
  | Some m => JsString.includes m s
  | None => false
  end.

(** [new Error(msg)] *)
Definition Error (msg : string) : JsError := {| message := Some msg |}.

(** The values of the promises that fulfilled, and the reasons of those
    that rejected, both in array order. *)
Fixpoint fulfilled {E R : Type} (l : list (E + R)) : list R :=
  match l with
  | [] => []
  | inr v :: l' => v :: fulfilled l'
  | inl _ :: l' => fulfilled l'
  end.

Fixpoint rejected {E R : Type} (l : list (E + R)) : list E :=
  match l with
  | [] => []
  | inr _ :: l' => rejected l'
  | inl e :: l' => e :: rejected l'
  end.

(** [await Promise.all(l)]: all the values when every promise fulfils,
    otherwise the reason of the promise that rejected first in time.  Time
    is not part of the model: [winner e es] stands for that choice among
    the reasons [e :: es]. *)
Definition Promise_all {E R : Type} (winner : E -> list E -> E)
    (l : list (E + R)) : E + list R :=
  match rejected l with
  | [] => inr (fulfilled l)
  | e :: es => inl (winner e es)
  end.

(** [a.slice(i, j)] for [0 <= i <= j] *)
Definition slice {A : Type} (a : list A) (i j : nat) : list A :=
  take (j - i) (drop i a).

Lemma rejected_nil {E R : Type} (l : list (E + R)) :
  rejected l = [] <-> l = inr <$> fulfilled l.
Proof.
  induction l as [|[e|v] l IH]; simpl; [done | |].
  - split; [done |]. by destruct (fulfilled l).
  - rewrite IH. split; [intros H; f_equal; exact H | intros [= H]; exact H].
Qed.

Lemma fulfilled_inr {E R : Type} (vs : list R) :
  fulfilled (inr <$> vs : list (E + R)) = vs.
Proof.
  induction vs as [|v vs IH]; [done |].
  rewrite fmap_cons. cbn [fulfilled]. by rewrite IH.
Qed.

Lemma Promise_all_inr {E R : Type} (winner : E -> list E -> E)
    (l : list (E + R)) (vs : list R) :
  Promise_all winner l = inr vs <-> l = inr <$> vs.
Proof.
  unfold Promise_all. split.
  - destruct (rejected l) eqn:Hr; [| done].
    intros [= <-]. by apply rejected_nil.
  - intros ->.
    assert (rejected (inr <$> vs : list (E + R)) = []) as ->.
    { apply rejected_nil. by rewrite fulfilled_inr. }
    by rewrite fulfilled_inr.
Qed.

End Js.

(** ** [services/documentProcessor.ts]: batches and PDF pages *)

Module Rasterizer.
Import Js.

Section BatchProcess.
Context {T R E : Type}.
Variable winner : E -> list E -> E.

(** The loop of [batchProcess].  One unit of [fuel] is one test of the
    loop condition; [None] says that the loop is still running when the
    fuel is used up. *)
Fixpoint batchProcess_loop (fuel : nat) (items : list T)
    (batchSize : nat) (fn : T -> E + R) (i : nat) (results : list R) :
    option (E + list R) :=
  match fuel with
  | 0 => None
  | S fuel' =>
      if i <? length items then
        let batch := slice items i (i + batchSize) in
        match Promise_all winner (fn <$> batch) with
        | inl e => Some (inl e)
        | inr batchResults =>
            batchProcess_loop fuel' items batchSize fn (i + batchSize)
              (results ++ batchResults)
        end
      else Some (inr results)
  end.

(** [batchProcess(items, batchSize, fn)].  With [batchSize >= 1] the
    condition is tested at most [items.length + 1] times; [None] is the
    loop that never ends, which is what [batchSize = 0] gives on a
    non-empty array. *)
Definition batchProcess (items : list T) (batchSize : nat)
    (fn : T -> E + R) : option (E + list R) :=
  batchProcess_loop (S (length items)) items batchSize fn 0 [].

(** The naive sequential map, [for (const x of items)
    results.push(await fn(x))]: the comparison point of the helper. *)
Fixpoint sequentialMap (fn : T -> E + R) (items : list T) :
    E + list R :=
  match items with
  | [] => inr []
  | x :: items' =>
      match fn x with
      | inl e => inl e
      | inr r =>
          match sequentialMap fn items' with
          | inl e => inl e
          | inr rs => inr (r :: rs)
          end
      end
  end.

Lemma sequentialMap_inr (fn : T -> E + R) (items : list T)
    (rs : list R) :
  sequentialMap fn items = inr rs <-> fn <$> items = inr <$> rs.
Proof.
  revert rs. induction items as [|x items IH]; intros rs; simpl.
  - split; [by intros [= <-] | by destruct rs].
  - destruct (fn x) as [e|r] eqn:Hx.
    + split; [done | by destruct rs].
    + destruct (sequentialMap fn items) as [e|rs'] eqn:Hs.
      * split; [done |]. destruct rs as [|r' rs]; [done |].
        intros [= -> H]. apply IH in H. done.
      * split.
        -- intros [= <-]. simpl. f_equal. by apply IH.
        -- destruct rs as [|r' rs]; [done |].
           intros [= -> H]. apply IH in H. by injection H as ->.
Qed.

(** The loop, started at index [i] with enough fuel, ends; it fulfils
    exactly when [fn] fulfils on every remaining item, with the results
    in item order after those already collected. *)
Lemma batchProcess_loop_spec (items : list T) (batchSize : nat)
    (fn : T -> E + R) :
  1 <= batchSize ->
  forall (fuel i : nat) (results : list R),
    length items - i < fuel ->
    exists out,
      batchProcess_loop fuel items batchSize fn i results = Some out /\
      forall rs,
        out = inr rs <->
        exists rs', rs = results ++ rs' /\
                    fn <$> drop i items = inr <$> rs'.
Proof.
  intros Hbs. induction fuel as [|fuel IH]; intros i results Hfuel;
    [lia |]. simpl.
  destruct (i <? length items) eqn:Hi.
  - apply Nat.ltb_lt in Hi. unfold slice.
    replace (i + batchSize - i) with batchSize by lia.
    assert (drop i items
            = take batchSize (drop i items) ++ drop (i + batchSize) items)
      as Hsplit.
    { rewrite <- (take_drop batchSize (drop i items)) at 1.
      by rewrite drop_drop. }
    destruct (Promise_all winner (fn <$> take batchSize (drop i items)))
      as [e|vs] eqn:Hall.
    + eexists. split; [done |]. intros rs. split; [done |].
      intros (rs' & _ & Hrs'). exfalso.
      rewrite Hsplit, fmap_app in Hrs'.
      assert (fn <$> take batchSize (drop i items)
              = inr <$> take (length (take batchSize (drop i items))) rs')
        as Hpre.
      { rewrite (fmap_take inr), <- Hrs', take_app_length'; [done |].
        by rewrite length_fmap. }
      apply (Promise_all_inr winner) in Hpre. congruence.
    + apply Promise_all_inr in Hall.
      destruct (IH (i + batchSize) (results ++ vs)) as (out & Hout & Hiff);
        [lia |].
      exists out. split; [done |]. intros rs. rewrite Hiff.
      split.
      * intros (rs' & -> & Hrs'). exists (vs ++ rs').
        split; [by rewrite app_assoc |].
        by rewrite Hsplit, !fmap_app, Hall, Hrs'.
      * intros (rs' & -> & Hrs').
        rewrite Hsplit, fmap_app, Hall in Hrs'.
        exists (drop (length vs) rs'). 
        assert (inr <$> vs = take (length vs) (inr <$> rs' : list (E + R)))
          as Hvs.
        { rewrite <- Hrs'. rewrite take_app_length'; [done |].
          by rewrite length_fmap. }
        rewrite <- (fmap_take inr) in Hvs.
        apply (inj (fmap inr)) in Hvs.
        split.
        -- rewrite <- app_assoc. f_equal.
           rewrite Hvs at 1. by rewrite take_drop.
        -- rewrite (fmap_drop inr), <- Hrs'.
           rewrite drop_app_length'; [done |]. by rewrite length_fmap.
  - apply Nat.ltb_ge in Hi. eexists. split; [done |].
    rewrite drop_ge by done. intros rs. split.
    + intros [= <-]. exists []. by rewrite app_nil_r.
    + intros (rs' & -> & Hrs'). destruct rs'; [| done].
      by rewrite app_nil_r.
Qed.

(** With [batchSize = 0] the index never moves: on an array with an item at
    index [i] the loop does not end, whatever the fuel. *)
Lemma batchProcess_loop_zero (items : list T) (fn : T -> E + R) :
  forall (fuel i : nat) (results : list R),
    i < length items ->
    batchProcess_loop fuel items 0 fn i results = None.
Proof.
  induction fuel as [|fuel IH]; intros i results Hi; [done |].
  simpl. replace (i <? length items) with true
    by (symmetry; by apply Nat.ltb_lt).
  unfold slice. replace (i + 0 - i) with 0 by lia.
  rewrite take_0, Nat.add_0_r. simpl. by apply IH.
Qed.

End BatchProcess.

(** *** [processPdfToImages]

    What the PDF library and the canvas do for one page, in the order in
    which [renderPage] asks. *)
Record PageEnv : Type := {
  getPage : JsError + unit;   (* await pdf.getPage(pageNum) *)
  getContext : bool;          (* canvas.getContext('2d') is not null *)
  render : JsError + unit;    (* await page.render({...}).promise *)
  toDataURL : string          (* canvas.toDataURL('image/jpeg', 0.8) *)
}.

(** An opened document: [pdf.numPages] and its pages, numbered from 1. *)
Record PdfDocument : Type := {
  numPages : nat;
  page : nat -> PageEnv
}.

(** [url.split(',')[1]]: a string, or [undefined] when the array has no
    index 1. *)
Definition base64_of (url : string) : option string :=
  JsString.split "," url !! 1.

Definition renderPage (pdf : PdfDocument) (pageNum : nat) :
    JsError + option string :=
  let pg := page pdf pageNum in
  match getPage pg with
  | inl e => inl e
  | inr _ =>
      if negb (getContext pg) then inr (Some "")
      else
        match render pg with
        | inl e => inl e
        | inr _ => inr (base64_of (toDataURL pg))
        end
  end.

(** Reading [img.length] of [undefined] throws. *)
Definition TypeError_length : JsError :=
  Error "Cannot read properties of undefined (reading 'length')".

(** [images.filter(img => img.length > 0)] *)
Fixpoint filter_images (images : list (option string)) :
    JsError + list string :=
  match images with
  | [] => inr []
  | None :: _ => inl TypeError_length
  | Some img :: rest =>
      match filter_images rest with
      | inl e => inl e
      | inr kept =>
          inr (if 0 <? JsString.length img then img :: kept else kept)
      end
  end.

(** [Array.from({ length: numPages }, (_, i) => i + 1)] *)
Definition pageIndices (numPages : nat) : list nat := seq 1 numPages.

(** [processPdfToImages(file)]; [opened] is what reading the file and
    [await pdfjsLib.getDocument({ data }).promise] settle to. *)
Definition processPdfToImages (winner : JsError -> list JsError -> JsError)
    (opened : JsError + PdfDocument) : option (JsError + list string) :=
  match opened with
  | inl e => Some (inl e)
  | inr pdf =>
      match batchProcess winner (pageIndices (numPages pdf)) 4
              (renderPage pdf) with
      | None => None
      | Some (inl e) => Some (inl e)
      | Some (inr images) => Some (filter_images images)
      end
  end.

(** The entry of a page that is fetched and drawn without error: the
    payload of its data URL when the drawing surface was acquired, the empty
    string when it was not. *)
Definition encoded (pg : PageEnv) : option string :=
  if getContext pg then base64_of (toDataURL pg) else Some "".

Lemma filter_images_Some (imgs : list string) :
  filter_images (Some <$> imgs)
  = inr (List.filter (fun img => 0 <? JsString.length img) imgs).
Proof.
  induction imgs as [|img imgs IH]; [done |].
  rewrite fmap_cons. cbn [filter_images List.filter]. rewrite IH.
  by destruct (0 <? JsString.length img).
Qed.

End Rasterizer.

(** ** [services/geminiService.ts]: the extraction client *)

Module GeminiService.
Import Js.

(** A value read from parsed JSON.  Arrays and objects are truthy, and
    have no method [trim]; nothing else is asked of them here. *)
Inductive JsValue : Type :=
| JUndefined
| JNull
| JBool (b : bool)
| JNumber (n : Z)
| JString (s : string)
| JCompound.

#[export] Instance JsValue_eq_dec : EqDecision JsValue.
Proof. solve_decision. Defined.

(** The test [v ? _ : _] *)
Definition truthy (v : JsValue) : bool :=
  match v with
  | JUndefined | JNull => false
  | JBool b => b
  | JNumber n => negb (n =? 0)%Z
  | JString s => negb (String.eqb s "")
  | JCompound => true
  end.

(** [item.k]: [undefined] when the object has no property [k]. *)
Definition prop (item : gmap string JsValue) (k : string) : JsValue :=
  default JUndefined (item !! k).

(** [v || undefined] *)
Definition or_undefined (v : JsValue) : JsValue :=
  if truthy v then v else JUndefined.

(** Calling [trim] on a truthy value that is not a string throws. *)
Definition TypeError_trim : JsError :=
  Error "item.correctAnswer.trim is not a function".

(** [item.correctAnswer
      ? item.correctAnswer.trim().toUpperCase().replace(/[^A-E]/g, '')
      : ''] *)
Definition normalizeAnswer (v : JsValue) : JsError + string :=
  if truthy v then
    match v with
    | JString s =>
        inr (JsString.remove_non_A_to_E
               (JsString.toUpperCase (JsString.trim s)))
    | _ => inl TypeError_trim
    end
  else inr "".

(** The callback of [parsed.map]: the object literal
    [{ ...item, id, choiceE, passage, correctAnswer }], with [id] the value
    of [crypto.randomUUID()]. *)
Definition postProcess (id : string) (item : gmap string JsValue) :
    JsError + gmap string JsValue :=
  match normalizeAnswer (prop item "correctAnswer") with
  | inl e => inl e
  | inr answer =>
      inr (<["correctAnswer" := JString answer]>
             (<["passage" := or_undefined (prop item "passage")]>
                (<["choiceE" := or_undefined (prop item "choiceE")]>
                   (<["id" := JString id]> item))))
  end.

(** [parsed.map(...)]: the elements in order, element [k] of the array
    getting the identifier [uuid k]; the first callback that throws ends
    the map. *)
Fixpoint postProcessAll (uuid : nat -> string) (k : nat)
    (items : list (gmap string JsValue)) :
    JsError + list (gmap string JsValue) :=
  match items with
  | [] => inr []
  | item :: items' =>
      match postProcess (uuid k) item with
      | inl e => inl e
      | inr record =>
          match postProcessAll uuid (S k) items' with
          | inl e => inl e
          | inr records => inr (record :: records)
          end
      end
  end.

(** What [JSON.parse] gives: an array of objects, as the response schema
    asks, or something that has no method [map]. *)
Inductive Parsed : Type :=
| PArray (items : list (gmap string JsValue))
| PNotArray.

Definition TypeError_map : JsError := Error "parsed.map is not a function".

(** The response of the model, as far as it is read: [response.text]. *)
Record Response : Type := { text : option string }.

Section Client.
(** [JSON.parse] is the runtime's; it returns or throws. *)
Variable JSON_parse : string -> JsError + Parsed.
(** [crypto.randomUUID()], by call number. *)
Variable uuid : nat -> string.

(** From [let rawText = response.text] to the [return] of the [try]
    block. *)
Definition readResponse (response : Response) :
    JsError + list (gmap string JsValue) :=
  match text response with
  | None => inr []
  | Some rawText =>
      if String.eqb rawText "" then inr []
      else
        let cleaned :=
          JsString.trim
            (JsString.remove_all "```"
               (JsString.remove_all "```json" rawText)) in
        match JSON_parse cleaned with
        | inl e => inl e
        | inr PNotArray => inl TypeError_map
        | inr (PArray items) => postProcessAll uuid 0 items
        end
  end.

(** [!apiKey] *)
Definition missing (apiKey : option string) : bool :=
  match apiKey with
  | None => true
  | Some k => String.eqb k ""
  end.

(** [analyzeDocumentContent] of [geminiService.ts]: one request, no
    retry.  [generateContent] is what the request settles to. *)
Definition analyzeDocumentContent (apiKey : option string)
    (generateContent : JsError + Response) :
    JsError + list (gmap string JsValue) :=
  if missing apiKey then
    inl (Error "API Key is missing. Please check your configuration.")
  else
    let attempt :=
      match generateContent with
      | inl e => inl e
      | inr response => readResponse response
      end in
    match attempt with
    | inr records => inr records
    | inl error =>
        if message_includes error "404"
           || message_includes error "Not Found"
        then inl (Error "Model not found. Please check API configuration.")
        else inr []
    end.

End Client.

End GeminiService.

(** ** The extraction client with retries (the later [geminiService.ts]) *)

Module GeminiRetry.
Import Js GeminiService.

(** What [generateWithRetry] does that can be seen from outside. *)
Inductive Event : Type :=
| Request (attempt : nat)   (* ai.models.generateContent(params) *)
| Wait (ms : nat).          (* await wait(ms) *)

(** reading [response.text] of [undefined] *)
Definition TypeError_text : JsError :=
  Error "Cannot read properties of undefined (reading 'text')".

(** [error.message?.includes('503') || error.message?.includes('429')] *)
Definition isRetryable (error : JsError) : bool :=
  message_includes error "503" || message_includes error "429".

(** The [for] loop of [generateWithRetry]; [remaining] is [retries - i].
    [generateContent i] is what the request of iteration [i] settles to.
    The result is [inr None] when the loop ends without [return]: the
    function then returns [undefined]. *)
Fixpoint retry_loop (generateContent : nat -> JsError + Response)
    (retries remaining i : nat) :
    (JsError + option Response) * list Event :=
  match remaining with
  | 0 => (inr None, [])
  | S remaining' =>
      match generateContent i with
      | inr response => (inr (Some response), [Request i])
      | inl error =>
          if (i =? retries - 1) || negb (isRetryable error)
          then (inl error, [Request i])
          else
            let '(result, events) :=
              retry_loop generateContent retries remaining' (S i) in
            (result, Request i :: Wait (1000 * 2 ^ i) :: events)
      end
  end.

Definition generateWithRetry
    (generateContent : nat -> JsError + Response) (retries : nat) :
    (JsError + option Response) * list Event :=
  retry_loop generateContent retries retries 0.

(** The default of the parameter; the only call uses it. *)
Definition defaultRetries : nat := 3.

Section Client.
Variable JSON_parse : string -> JsError + Parsed.
Variable uuid : nat -> string.

(** The body of the [try] block, after the request. *)
Definition tryBlock (result : JsError + option Response) :
    JsError + list (gmap string JsValue) :=
  match result with
  | inl e => inl e
  | inr None => inl TypeError_text
  | inr (Some response) => readResponse JSON_parse uuid response
  end.

(** [analyzeDocumentContent(pages, mimeType, language)].  [apiKey] is
    the key found in [process.env] or [window.process.env], if any. *)
Definition analyzeDocumentContent (apiKey : option string)
    (generateContent : nat -> JsError + Response) :
    (JsError + list (gmap string JsValue)) * list Event :=
  if missing apiKey then
    (inl (Error ("API Key is missing. Please ensure " +:+
                 "process.env.API_KEY is configured in your environment.")),
     [])
  else
    let '(result, events) :=
      generateWithRetry generateContent defaultRetries in
    match tryBlock result with
    | inr records => (inr records, events)
    | inl _ => (inr [], events)
    end.

End Client.

End GeminiRetry.

(** ** [types.ts] and the state of [App.tsx] *)

Module AppTypes.
Import Js GeminiService.

(** [enum DocType] *)
Inductive DocType : Type := PDF | DOCX | UNKNOWN.

(** [detectFileType(file)] of [documentProcessor.ts], on [file.type] *)
Definition detectFileType (fileType : string) : DocType :=
  if String.eqb fileType "application/pdf" then PDF
  else if String.eqb fileType
            ("application/vnd.openxmlformats-officedocument."
             +:+ "wordprocessingml.document")
  then DOCX
  else UNKNOWN.

(** [ProcessingStatus['status']] *)
Inductive Phase : Type := idle | analyzing | extracting | complete | error.

Record ProcessingStatus : Type := {
  total : nat;
  current : nat;
  status : Phase;
  message : option string
}.

Definition with_current (n : nat) (st : ProcessingStatus) :
    ProcessingStatus :=
  {| total := total st; current := n; status := status st;
     message := message st |}.

Definition with_message (m : string) (st : ProcessingStatus) :
    ProcessingStatus :=
  {| total := total st; current := current st; status := status st;
     message := Some m |}.

(** [a === b] where [b] is a string *)
Definition strict_eq_string (a : JsValue) (b : string) : bool :=
  match a with
  | JString s => String.eqb s b
  | _ => false
  end.

(** [handleUpdateResult(id, field, value)], as the function it hands to
    [setResults].  [field] is a key of [McqData]; any property name is
    dealt with in the same way. *)
Definition handleUpdateResult (id field value : string)
    (prev : list (gmap string JsValue)) : list (gmap string JsValue) :=
  (fun item =>
     if strict_eq_string (prop item "id") id
     then <[field := JString value]> item
     else item) <$> prev.

(** [handleDeleteResult(id)] *)
Definition handleDeleteResult (id : string)
    (prev : list (gmap string JsValue)) : list (gmap string JsValue) :=
  List.filter (fun item => negb (strict_eq_string (prop item "id") id)) prev.

End AppTypes.

(** ** [App.tsx], first version: one content unit after the other *)

Module AppSequential.
Import Js GeminiService AppTypes.

Record AppState : Type := {
  results : list (gmap string JsValue);
  progress : ProcessingStatus
}.

(** [e.message.includes(...)] on a value without [message] throws. *)
Definition TypeError_includes : JsError :=
  Error "Cannot read properties of undefined (reading 'includes')".

(** The test of the [catch] block:
    [e.message.includes('API Key') || e.message.includes('Model not found')] *)
Definition isCritical (e : JsError) : JsError + bool :=
  match Js.message e with
  | None => inl TypeError_includes
  | Some m =>
      inr (JsString.includes m "API Key"
           || JsString.includes m "Model not found")
  end.

(** The [for] loop over the content units, [i] running up to [n], the
    number of units; [remaining] is [n - i].  [label] is ["page"] or
    ["part"].  [analyze i] is what
    [await analyzeDocumentContent(units[i], ...)] settles to. *)
Fixpoint extractLoop (label : string) (n : nat)
    (analyze : nat -> JsError + list (gmap string JsValue))
    (remaining i : nat) (st : AppState) : (JsError + unit) * AppState :=
  match remaining with
  | 0 => (inr tt, st)
  | S remaining' =>
      let st1 :=
        {| results := results st;
           progress :=
             with_message
               ("Analyzing " +:+ label +:+ " " +:+ pretty (i + 1)
                +:+ " of " +:+ pretty n +:+ "...")
               (with_current (i + 1) (progress st)) |} in
      match analyze i with
      | inr pageData =>
          let st2 :=
            if 0 <? length pageData
            then {| results := results st1 ++ pageData;
                    progress := progress st1 |}
            else st1 in
          extractLoop label n analyze remaining' (S i) st2
      | inl e =>
          match isCritical e with
          | inl e' => (inl e', st1)
          | inr true => (inl e, st1)
          | inr false => extractLoop label n analyze remaining' (S i) st1
          end
      end
  end.

(** The loop as [handleProcess] enters it for [units]. *)
Definition extractUnits (label : string) (units : list string)
    (analyze : nat -> JsError + list (gmap string JsValue))
    (st : AppState) : (JsError + unit) * AppState :=
  extractLoop label (length units) analyze (length units) 0 st.

End AppSequential.

(** ** [App.tsx], second version: groups, waves and cancellation *)

Module App.
Import Js GeminiService AppTypes.

Definition PAGES_PER_CONTEXT : nat := 4.
Definition CONCURRENT_REQUESTS : nat := 3.

(** Where [processGroups] stands.  It runs from one [await] to the next
    without interruption; while it waits, other handlers may run. *)
Inductive Pc : Type :=
| Start                                  (* called, not yet run *)
| Awaiting (i completedGroups : nat)     (* at [await Promise.all] *)
| Finished                               (* returned *)
| Threw (e : JsError).                   (* the promise it returned rejected *)

(** The state of the component and of the call; [dispatched] records, in
    order, the indices of the groups for which [analyzeDocumentContent]
    has been called. *)
Record Config : Type := {
  results : list (gmap string JsValue);
  progress : ProcessingStatus;
  abortRef : bool;
  pc : Pc;
  dispatched : list nat
}.

Definition set_pc (p : Pc) (c : Config) : Config :=
  {| results := results c; progress := progress c; abortRef := abortRef c;
     pc := p; dispatched := dispatched c |}.

Definition set_progress (f : ProcessingStatus -> ProcessingStatus)
    (c : Config) : Config :=
  {| results := results c; progress := f (progress c);
     abortRef := abortRef c; pc := pc c; dispatched := dispatched c |}.

Definition append_results (new : list (gmap string JsValue)) (c : Config) :
    Config :=
  {| results := results c ++ new; progress := progress c;
     abortRef := abortRef c; pc := pc c; dispatched := dispatched c |}.

Definition dispatch (indices : list nat) (c : Config) : Config :=
  {| results := results c; progress := progress c; abortRef := abortRef c;
     pc := pc c; dispatched := dispatched c ++ indices |}.

(** [handleCancel] *)
Definition handleCancel (c : Config) : Config :=
  {| results := results c;
     progress := {| total := 0; current := 0; status := idle;
                    message := Some "Stopping..." |};
     abortRef := true; pc := pc c; dispatched := dispatched c |}.

(** [Math.ceil((completedGroups + 1) / CONCURRENT_REQUESTS) + 1] *)
Definition batchNumber (completedGroups : nat) : nat :=
  (completedGroups + 1 + (CONCURRENT_REQUESTS - 1)) / CONCURRENT_REQUESTS + 1.

Section ProcessGroups.
Variable winner : JsError -> list JsError -> JsError.
(** The groups, and what [analyzeDocumentContent(groups[k], ...)]
    settles to. *)
Variable groups : list (list string).
Variable analyze : nat -> JsError + list (gmap string JsValue).

(** The indices of [groups.slice(i, i + CONCURRENT_REQUESTS)] *)
Definition wave (i : nat) : list nat :=
  seq i (length (slice groups i (i + CONCURRENT_REQUESTS))).

(** From the loop condition at index [i] to the next [await], or to the
    end of the loop. *)
Definition enterWave (i completedGroups : nat) (c : Config) : Config :=
  if i <? length groups then
    if abortRef c then set_pc Finished c
    else
      set_pc (Awaiting i completedGroups)
        (dispatch (wave i)
           (set_progress
              (with_message
                 ("Analyzing batch "
                  +:+ pretty (batchNumber completedGroups) +:+ "..."))
              c))
  else set_pc Finished c.

(** From the [await] of the wave at index [i] on, once all its promises
    have settled. *)
Definition leaveWave (i completedGroups : nat) (c : Config) : Config :=
  match Promise_all winner (analyze <$> wave i) with
  | inl e => set_pc (Threw e) c
  | inr batchResults =>
      if abortRef c then set_pc Finished c
      else
        let flatResults := List.concat batchResults in
        let c1 :=
          if 0 <? length flatResults
          then append_results flatResults c else c in
        let completedGroups' := completedGroups + length (wave i) in
        enterWave (i + CONCURRENT_REQUESTS) completedGroups'
          (set_progress (with_current completedGroups') c1)
  end.

(** [handleProcess], called for a file of the given kind, up to its first
    [await]: the flag is cleared, the store is emptied, the status is set.
    The call goes on by itself from there; its later steps are not part of
    this model, which follows one call of [processGroups]. *)
Definition handleProcess_begin (type : DocType) (c : Config) : Config :=
  {| results := [];
     progress :=
       match type with
       | PDF =>
           {| total := 100; current := 0; status := analyzing;
              message := Some "Optimizing PDF (Parallel Processing)..." |}
       | DOCX =>
           {| total := 100; current := 10; status := analyzing;
              message := Some "Reading Word Document..." |}
       | UNKNOWN =>
           {| total := 0; current := 0; status := extracting;
              message := Some "AI Extraction in Progress..." |}
       end;
     abortRef := false; pc := pc c; dispatched := dispatched c |}.

(** What can happen next.  [processGroups] runs on to its next [await]; or,
    while it waits, the user presses the button on show: the cancel button,
    or, when the status is no longer [analyzing] or [extracting], the button
    that starts [handleProcess] again. *)
Inductive Event : Type :=
| Resume
| Cancel
| Restart (type : DocType).

(** [isProcessing], which decides which of the two buttons is on show *)
Definition isProcessing (st : ProcessingStatus) : bool :=
  match status st with
  | analyzing | extracting => true
  | _ => false
  end.

Definition step (ev : Event) (c : Config) : Config :=
  match ev with
  | Cancel => if isProcessing (progress c) then handleCancel c else c
  | Restart type =>
      if isProcessing (progress c) then c else handleProcess_begin type c
  | Resume =>
      match pc c with
      | Start => enterWave 0 0 c
      | Awaiting i completedGroups => leaveWave i completedGroups c
      | Finished | Threw _ => c
      end
  end.

(** A run: the events in the order in which they happen. *)
Definition run (events : list Event) (c : Config) : Config :=
  foldl (fun c ev => step ev c) c events.

End ProcessGroups.

End App.

(** * The properties of the specification *)

(** Records to run the definitions on. *)
Module Samples.
Import GeminiService.

(** The record with identifier [id] and the given question. *)
Definition record (id question : string) : gmap string JsValue :=
  <["id" := JString id]> (<["question" := JString question]> ∅).

End Samples.

Module ChunkerSpec.
Import JsString Chunker.

(** C3.  For every HTML string and every maximum chunk size, the chunks
    returned by [chunkHtmlContent], concatenated in order, are the original
    HTML string, code unit for code unit.  (Positive sizes are the case the
    specification names; the equation holds for size 0 as well.) *)
Theorem chunkHtmlContent_concat (html : string) (maxChunkSize : nat) :
  concat (chunkHtmlContent html maxChunkSize) = html.
Proof.
  rewrite chunkHtmlContent_unfold.
  destruct (length html <=? maxChunkSize); [apply concat_singleton |].
  destruct (pack maxChunkSize (paragraphs html) [] "") as [chunks cur] eqn:E.
  apply pack_concat in E. simpl in E.
  rewrite concat_paragraphs in E.
  destruct (0 <? length cur) eqn:Hcur.
  - by autorewrite with jsstring in *.
  - apply Nat.ltb_ge in Hcur.
    assert (cur = "") as -> by (apply length_zero; lia).
    by autorewrite with jsstring in *.
Qed.

(** C4.  For every HTML string and every maximum chunk size, every chunk
    returned by [chunkHtmlContent] is the concatenation of a run of
    consecutive whole paragraphs of the document (the ['</p>']-delimited
    parts, closing tag included), so no paragraph is split across chunks;
    and the chunk is no longer than the maximum, unless it is one single
    paragraph whose own length exceeds the maximum. *)
Theorem chunkHtmlContent_budget (html : string) (maxChunkSize : nat) :
  Forall
    (fun chunk =>
       exists pre grp post,
         paragraphs html = pre ++ grp ++ post /\
         chunk = concat grp /\
         (length chunk <= maxChunkSize \/
          exists p, grp = [p] /\ maxChunkSize < length p))
    (chunkHtmlContent html maxChunkSize).
Proof.
  assert (Forall (paragraph_run maxChunkSize (paragraphs html))
            (chunkHtmlContent html maxChunkSize)) as Hruns.
  { rewrite chunkHtmlContent_unfold.
    destruct (length html <=? maxChunkSize) eqn:Hsmall.
    - apply Nat.leb_le in Hsmall. apply Forall_singleton.
      exists [], (paragraphs html), [].
      split; [by rewrite app_nil_r |].
      split; [by rewrite concat_paragraphs |].
      left. by rewrite concat_paragraphs.
    - destruct (pack maxChunkSize (paragraphs html) [] "")
        as [chunks cur] eqn:E.
      apply (pack_runs maxChunkSize (paragraphs html) _ [] []) in E;
        [| done | done | left; simpl; unfold length; simpl; lia | done].
      destruct E as [Hchunks Hcur].
      destruct (0 <? length cur); [| done].
      apply Forall_app. split; [done | by apply Forall_singleton]. }
  eapply Forall_impl; [exact Hruns |].
  intros chunk (pre & grp & post & Hw & Hc & Hb).
  exists pre, grp, post. split; [done |]. split; [done |].
  unfold within_budget in Hb. by rewrite Hc.
Qed.

End ChunkerSpec.

Module BatchSpec.
Import Js Rasterizer.

(** With [batchSize >= 1] the helper ends, and it fulfils exactly when
    every call of [fn] fulfils, with the results in item order. *)
Lemma batchProcess_spec {T R E : Type} (winner : E -> list E -> E)
    (items : list T) (batchSize : nat) (fn : T -> E + R) :
  1 <= batchSize ->
  exists out,
    batchProcess winner items batchSize fn = Some out /\
    forall rs, out = inr rs <-> fn <$> items = inr <$> rs.
Proof.
  intros Hbs. unfold batchProcess.
  destruct (batchProcess_loop_spec winner items batchSize fn Hbs
              (S (length items)) 0 []) as (out & Hout & Hiff); [lia |].
  exists out. split; [done |]. intros rs. rewrite Hiff. simpl.
  split; [by intros (rs' & -> & H) | intros H; by exists rs].
Qed.

Lemma fmap_inr_Forall2 {T R E : Type} (fn : T -> E + R) (items : list T)
    (rs : list R) :
  fn <$> items = inr <$> rs -> Forall2 (fun x r => fn x = inr r) items rs.
Proof.
  revert rs. induction items as [|x items IH]; intros [|r rs] H; try done.
  injection H as Hx Hrest. constructor; [done | by apply IH].
Qed.

(** C9.  For every input list, every batch size of at least 1 and every
    per-item function, [batchProcess] ends and gives what mapping the
    function over the list one item after the other gives: it returns a
    list exactly when the sequential map does, and then the same list, one
    result per item in input order; for a function that never fails this
    list is the plain map, whatever the batch size. *)
Theorem batchProcess_sequentialMap {T R E : Type}
    (winner : E -> list E -> E) (items : list T) (batchSize : nat)
    (fn : T -> E + R) :
  1 <= batchSize ->
  exists out,
    batchProcess winner items batchSize fn = Some out /\
    (forall rs, out = inr rs <-> sequentialMap fn items = inr rs) /\
    (forall rs, out = inr rs -> Forall2 (fun x r => fn x = inr r) items rs) /\
    (forall f : T -> R, (forall x, fn x = inr (f x)) ->
                        out = inr (f <$> items)).
Proof.
  intros Hbs.
  destruct (batchProcess_spec winner items batchSize fn Hbs)
    as (out & Hout & Hiff).
  exists out. split; [done |]. split; [| split].
  - intros rs. by rewrite Hiff, sequentialMap_inr.
  - intros rs Hrs. apply Hiff in Hrs. by apply fmap_inr_Forall2.
  - intros f Hf. apply Hiff.
    rewrite <- list_fmap_compose. apply list_fmap_ext.
    intros _ x _. apply Hf.
Qed.

(** The helper run on five items in batches of two. *)
Lemma batchProcess_sequentialMap_witness :
  exists out,
    batchProcess (fun (e : unit) _ => e) [1; 2; 3; 4; 5] 2
      (fun x => inr (x * x)) = Some out /\
    out = inr [1; 4; 9; 16; 25].
Proof.
  destruct (batchProcess_sequentialMap (fun (e : unit) _ => e)
              [1; 2; 3; 4; 5] 2 (fun x => inr (x * x)))
    as (out & Hout & _ & _ & Hpure); [lia |].
  exists out. split; [exact Hout |].
  exact (Hpure (fun x => x * x) (fun x => eq_refl)).
Defined.

End BatchSpec.

Module RasterizerSpec.
Import Js Rasterizer BatchSpec.

Definition nonempty (img : string) : bool := 0 <? JsString.length img.

(** [processPdfToImages] returns exactly when every page is rendered to a
    string, and then it returns the strings that are not empty. *)
Lemma processPdfToImages_returns (winner : JsError -> list JsError -> JsError)
    (pdf : PdfDocument) (images : list string) :
  processPdfToImages winner (inr pdf) = Some (inr images) <->
  exists payloads,
    renderPage pdf <$> pageIndices (numPages pdf) = (inr ∘ Some) <$> payloads
    /\ images = List.filter nonempty payloads.
Proof.
  unfold processPdfToImages.
  destruct (batchProcess_spec winner (pageIndices (numPages pdf)) 4
              (renderPage pdf)) as (out & -> & Hiff); [lia |].
  split.
  - destruct out as [e|rendered]; [done |].
    intros Hfilter. pose proof (proj1 (Hiff rendered) eq_refl) as Hr.
    assert (exists payloads, rendered = Some <$> payloads) as [payloads ->].
    { clear Hr Hiff. revert images Hfilter.
      induction rendered as [|[img|] rest IH]; intros images Hf.
      - by exists [].
      - simpl in Hf. destruct (filter_images rest) as [e|kept]; [done |].
        destruct (IH kept eq_refl) as [payloads ->].
        by exists (img :: payloads).
      - done. }
    exists payloads. split; [by rewrite Hr, <- list_fmap_compose |].
    rewrite filter_images_Some in Hfilter. by injection Hfilter as <-.
  - intros (payloads & Hr & ->).
    rewrite (list_fmap_compose Some inr) in Hr.
    apply Hiff in Hr. rewrite Hr.
    by rewrite filter_images_Some.
Qed.

Lemma renderPage_encoded (pdf : PdfDocument) (pageNum : nat)
    (payload : string) :
  renderPage pdf pageNum = inr (Some payload) ->
  encoded (page pdf pageNum) = Some payload.
Proof.
  unfold renderPage, encoded.
  destruct (getPage (page pdf pageNum)); [done |].
  destruct (getContext (page pdf pageNum)); simpl; [| by intros [= <-]].
  destruct (render (page pdf pageNum)); [done | by intros [= ->]].
Qed.

(** C7, as amended.  When [processPdfToImages] returns for a PDF with [N]
    pages, every page [1..N] was rendered to a string, the payload of its
    data URL or the empty string when no drawing surface could be had; the
    images returned are these strings without the empty ones, in page
    order, so there are at most [N] and the pages missing are those without
    a surface or with an empty payload.  It does return when every page
    renders to a string.  A page without a surface renders to the empty
    string: it does not reject, so it does not abort the document. *)
Theorem processPdfToImages_pages (winner : JsError -> list JsError -> JsError)
    (pdf : PdfDocument) :
  (forall images,
     processPdfToImages winner (inr pdf) = Some (inr images) ->
     exists payloads,
       length payloads = numPages pdf /\
       (forall i payload,
          payloads !! i = Some payload ->
          renderPage pdf (i + 1) = inr (Some payload) /\
          encoded (page pdf (i + 1)) = Some payload) /\
       images = List.filter nonempty payloads /\
       length images <= numPages pdf) /\
  (forall payloads,
     renderPage pdf <$> pageIndices (numPages pdf)
     = (inr ∘ Some) <$> payloads ->
     processPdfToImages winner (inr pdf)
     = Some (inr (List.filter nonempty payloads))) /\
  (forall pageNum,
     getPage (page pdf pageNum) = inr tt ->
     getContext (page pdf pageNum) = false ->
     renderPage pdf pageNum = inr (Some "")).
Proof.
  split; [| split].
  - intros images (payloads & Hr & ->)%processPdfToImages_returns.
    assert (length payloads = numPages pdf) as Hlen.
    { apply (f_equal length) in Hr.
      rewrite !length_fmap in Hr. unfold pageIndices in Hr.
      by rewrite length_seq in Hr. }
    exists payloads. split; [done |]. split; [| split; [done |]].
    + intros i payload Hi.
      assert ((renderPage pdf <$> pageIndices (numPages pdf)) !! i
              = Some (inr (Some payload))) as Hlook.
      { rewrite Hr, list_lookup_fmap, Hi. done. }
      rewrite list_lookup_fmap in Hlook. unfold pageIndices in Hlook.
      apply lookup_lt_Some in Hi.
      rewrite lookup_seq_lt in Hlook by lia. simpl in Hlook.
      injection Hlook as Hlook.
      replace (i + 1) with (S i) by lia.
      split; [done |]. by apply renderPage_encoded.
    + rewrite <- Hlen. apply List.filter_length_le.
  - intros payloads Hr. apply processPdfToImages_returns. by exists payloads.
  - intros pageNum Hpage Hctx. unfold renderPage. by rewrite Hpage, Hctx.
Qed.

(** Where every page that got its surface has a payload that is not empty,
    the images are as many as the pages that got their surface. *)
Lemma processPdfToImages_one_per_surface
    (winner : JsError -> list JsError -> JsError) (pdf : PdfDocument)
    (images : list string) :
  processPdfToImages winner (inr pdf) = Some (inr images) ->
  (forall pageNum payload,
     getContext (page pdf pageNum) = true ->
     base64_of (toDataURL (page pdf pageNum)) = Some payload ->
     nonempty payload = true) ->
  length images
  = length (List.filter (fun pageNum => getContext (page pdf pageNum))
              (pageIndices (numPages pdf))).
Proof.
  intros (payloads & Hr & ->)%processPdfToImages_returns Hfull.
  revert payloads Hr.
  induction (pageIndices (numPages pdf)) as [|pageNum pages IH];
    intros [|payload payloads] Hr; try done.
  rewrite !fmap_cons in Hr. injection Hr as Hpage Hrest.
  apply renderPage_encoded in Hpage. unfold encoded in Hpage.
  cbn [List.filter].
  destruct (getContext (page pdf pageNum)) eqn:Hctx.
  - rewrite (Hfull pageNum payload Hctx Hpage). simpl. f_equal. by apply IH.
  - injection Hpage as <-. simpl. by apply IH.
Qed.

(** A page that is fetched, gets its surface and is drawn, with the data
    URL the canvas returns. *)
Definition drawnPage (url : string) : PageEnv :=
  {| getPage := inr tt; getContext := true; render := inr tt;
     toDataURL := url |}.

(** A page for which [getContext('2d')] returns [null]. *)
Definition noSurfacePage : PageEnv :=
  {| getPage := inr tt; getContext := false; render := inr tt;
     toDataURL := "" |}.

(** A document of three pages, the second without a surface. *)
Definition threePages : PdfDocument :=
  {| numPages := 3;
     page := fun pageNum =>
       match pageNum with
       | 1 => drawnPage "data:image/jpeg;base64,QUJD"
       | 2 => noSurfacePage
       | _ => drawnPage "data:image/jpeg;base64,REVG"
       end |}.

Lemma processPdfToImages_pages_witness :
  processPdfToImages (fun e _ => e) (inr threePages)
  = Some (inr ["QUJD"; "REVG"]).
Proof.
  apply (proj1 (proj2 (processPdfToImages_pages (fun e _ => e) threePages))
           ["QUJD"; ""; "REVG"]).
  reflexivity.
Defined.

(** A document of one page whose canvas has no pixels: the surface is
    acquired, and [toDataURL] returns ["data:,"], as the HTML standard
    prescribes for such a canvas. *)
Definition emptyCanvasPdf : PdfDocument :=
  {| numPages := 1; page := fun _ => drawnPage "data:," |}.

(** C7 as stated fails: the surface of the only page is acquired, no page
    fetch or render fails, and yet no image is returned for it. *)
Lemma acquired_page_without_image :
  getPage (page emptyCanvasPdf 1) = inr tt /\
  getContext (page emptyCanvasPdf 1) = true /\
  render (page emptyCanvasPdf 1) = inr tt /\
  processPdfToImages (fun e _ => e) (inr emptyCanvasPdf) = Some (inr []).
Proof. repeat split; reflexivity. Qed.

End RasterizerSpec.

Module ExtractionSpec.
Import Js GeminiService.

(** What the post-processing does guarantee about the answer: only the
    letters [A]..[E] are left in it. *)
Lemma remove_non_A_to_E_alphabet (s : string) (c : ascii) :
  In c (list_ascii_of_string (JsString.remove_non_A_to_E s)) ->
  JsString.in_A_to_E c = true.
Proof.
  induction s as [|a s IH]; simpl; [done |].
  destruct (JsString.in_A_to_E a) eqn:Ha; [| done].
  simpl. intros [<- | H]; [done | by apply IH].
Qed.

(** A raw element as the response schema describes it. *)
Definition rawItem (answer : JsValue) : gmap string JsValue :=
  <["question" := JString "2 + 2 = ?"]>
    (<["choiceA" := JString "3"]>
       (<["choiceB" := JString "4"]>
          (<["choiceC" := JString "5"]>
             (<["choiceD" := JString "6"]>
                (<["correctAnswer" := answer]> ∅))))).

(** C1 fails on the code.  An answer whose letters are all among [A]..[E]
    comes through whole: ["bad"] becomes ["BAD"], three code units, and
    ["B, D"] becomes ["BD"]; neither is empty nor a single letter. *)
Theorem postProcess_keeps_several_letters :
  (exists record,
     postProcess "id-1" (rawItem (JString "bad")) = inr record /\
     record !! "correctAnswer" = Some (JString "BAD")) /\
  (exists record,
     postProcess "id-2" (rawItem (JString "B, D")) = inr record /\
     record !! "correctAnswer" = Some (JString "BD")).
Proof. split; eexists; split; reflexivity. Qed.

Lemma postProcess_answer (id : string) (item : gmap string JsValue)
    (answer : string) :
  normalizeAnswer (prop item "correctAnswer") = inr answer ->
  exists record,
    postProcess id item = inr record /\
    record !! "correctAnswer" = Some (JString answer).
Proof.
  intros H. unfold postProcess. rewrite H. eexists. split; [done |].
  apply lookup_insert_eq.
Qed.

(** C8.  Post-processing maps a raw element whose [correctAnswer] is
    ["b)"] to a record whose [correctAnswer] is ["B"], and a raw element
    whose [correctAnswer] is [""] or absent to a record whose
    [correctAnswer] is the empty string: a string, not [null] or
    [undefined]. *)
Theorem postProcess_correctAnswer (id : string)
    (item : gmap string JsValue) :
  (item !! "correctAnswer" = Some (JString "b)") ->
   exists record,
     postProcess id item = inr record /\
     record !! "correctAnswer" = Some (JString "B")) /\
  (item !! "correctAnswer" = Some (JString "") \/
   item !! "correctAnswer" = None ->
   exists record,
     postProcess id item = inr record /\
     record !! "correctAnswer" = Some (JString "")).
Proof.
  split.
  - intros H. apply postProcess_answer. unfold prop. by rewrite H.
  - intros [H | H]; apply postProcess_answer; unfold prop; by rewrite H.
Qed.

Lemma postProcess_correctAnswer_witness :
  (exists record,
     postProcess "id-1" (rawItem (JString "b)")) = inr record /\
     record !! "correctAnswer" = Some (JString "B")) /\
  (exists record,
     postProcess "id-2" (rawItem (JString "")) = inr record /\
     record !! "correctAnswer" = Some (JString "")) /\
  (exists record,
     postProcess "id-3" (delete "correctAnswer" (rawItem JNull))
     = inr record /\
     record !! "correctAnswer" = Some (JString "")).
Proof.
  split; [| split].
  - apply (proj1 (postProcess_correctAnswer "id-1"
                    (rawItem (JString "b)")))).
    reflexivity.
  - apply (proj2 (postProcess_correctAnswer "id-2" (rawItem (JString "")))).
    left. reflexivity.
  - apply (proj2 (postProcess_correctAnswer "id-3"
                    (delete "correctAnswer" (rawItem JNull)))).
    right. reflexivity.
Defined.

End ExtractionSpec.

Module RetrySpec.
Import Js GeminiService GeminiRetry.

(** The requests and waits of a call whose attempts [i], [i + 1], ... fail
    [n] times in a row before attempt [i + n] ends it: after the failure of
    attempt [j] the wait is [1000 * 2 ^ j] milliseconds. *)
Fixpoint backoff (i n : nat) : list Event :=
  match n with
  | 0 => [Request i]
  | S n' => Request i :: Wait (1000 * 2 ^ i) :: backoff (S i) n'
  end.

(** What the request of attempt [k] settles to, as the result of the
    whole call. *)
Definition settles (generateContent : nat -> JsError + Response) (k : nat) :
    JsError + option Response :=
  match generateContent k with
  | inl e => inl e
  | inr response => inr (Some response)
  end.

Lemma retry_loop_step (generateContent : nat -> JsError + Response)
    (retries remaining i : nat) :
  retry_loop generateContent retries (S remaining) i =
    match generateContent i with
    | inr response => (inr (Some response), [Request i])
    | inl error =>
        if (i =? retries - 1) || negb (isRetryable error)
        then (inl error, [Request i])
        else
          let '(result, events) :=
            retry_loop generateContent retries remaining (S i) in
          (result, Request i :: Wait (1000 * 2 ^ i) :: events)
    end.
Proof. reflexivity. Qed.

(** The loop ends on the first attempt [k] that succeeds, fails with an
    error that is not retryable, or is the last one allowed. *)
Lemma retry_loop_spec (generateContent : nat -> JsError + Response)
    (retries : nat) :
  forall remaining i,
    i + S remaining = retries ->
    exists k,
      i <= k < retries /\
      retry_loop generateContent retries (S remaining) i
      = (settles generateContent k, backoff i (k - i)) /\
      (forall j, i <= j < k ->
                 exists e, generateContent j = inl e /\
                           isRetryable e = true) /\
      (forall e, generateContent k = inl e -> isRetryable e = true ->
                 k = retries - 1).
Proof.
  induction remaining as [|remaining IH]; intros i Hi;
    rewrite retry_loop_step.
  - exists i. replace (i - i) with 0 by lia. split; [lia |].
    split; [| split; [intros; lia | intros; lia]].
    unfold settles. destruct (generateContent i); [| done].
    replace (i =? retries - 1) with true
      by (symmetry; apply Nat.eqb_eq; lia).
    done.
  - destruct (generateContent i) as [e|response] eqn:Hi0.
    + replace (i =? retries - 1) with false
        by (symmetry; apply Nat.eqb_neq; lia).
      destruct (isRetryable e) eqn:He; cbn [negb orb].
      * destruct (IH (S i)) as (k & Hk & Hloop & Hbefore & Hlast); [lia |].
        exists k. split; [lia |]. rewrite Hloop.
        replace (k - i) with (S (k - S i)) by lia.
        split; [done |]. split; [| done].
        intros j Hj. destruct (decide (j = i)) as [-> | Hne]; [by exists e |].
        apply Hbefore. lia.
      * exists i. replace (i - i) with 0 by lia. split; [lia |].
        unfold settles. rewrite Hi0.
        split; [done |]. split; [intros; lia | congruence].
    + exists i. replace (i - i) with 0 by lia. split; [lia |].
      unfold settles. rewrite Hi0.
      split; [done |]. split; [intros; lia | done].
Qed.

(** C2, as amended.  With a key configured, [analyzeDocumentContent] makes
    at most 3 requests.  A request whose failure carries ['503'] or ['429']
    in its message is followed, unless it was the third, by a wait of
    [1000 * 2 ^ i] ms and another request; the first request [k] that
    succeeds, fails otherwise, or is the third, ends [generateWithRetry],
    which returns its response or throws its error.  Whatever
    [generateWithRetry] throws is caught by [analyzeDocumentContent], which
    then returns the empty list: it always returns a list, and no failure
    of a request reaches the caller of the extraction client. *)
Theorem analyzeDocumentContent_retries
    (JSON_parse : string -> JsError + Parsed) (uuid : nat -> string)
    (apiKey : option string)
    (generateContent : nat -> JsError + Response) :
  missing apiKey = false ->
  exists k,
    k < 3 /\
    generateWithRetry generateContent defaultRetries
    = (settles generateContent k, backoff 0 k) /\
    (forall j, j < k ->
               exists e, generateContent j = inl e /\ isRetryable e = true) /\
    (forall e, generateContent k = inl e -> isRetryable e = true -> k = 2) /\
    snd (analyzeDocumentContent JSON_parse uuid apiKey generateContent)
    = backoff 0 k /\
    (forall e, generateContent k = inl e ->
               fst (analyzeDocumentContent JSON_parse uuid apiKey
                      generateContent) = inr []) /\
    (exists records,
       fst (analyzeDocumentContent JSON_parse uuid apiKey generateContent)
       = inr records).
Proof.
  intros Hkey.
  destruct (retry_loop_spec generateContent 3 2 0 eq_refl)
    as (k & Hk & Hloop & Hbefore & Hlast).
  rewrite Nat.sub_0_r in Hloop.
  exists k. split; [lia |]. split; [exact Hloop |].
  split; [intros j Hj; apply Hbefore; lia |].
  split; [intros e He Hr; by rewrite (Hlast e He Hr) |].
  unfold analyzeDocumentContent. rewrite Hkey.
  change (generateWithRetry generateContent defaultRetries)
    with (retry_loop generateContent 3 3 0).
  rewrite Hloop.
  split; [by destruct (tryBlock _ _ _) |].
  split.
  - intros e He. unfold settles. rewrite He. done.
  - destruct (tryBlock JSON_parse uuid (settles generateContent k));
      by eexists.
Qed.

(** Two rate-limit failures, then an answer with an empty array. *)
Definition twoRateLimits (i : nat) : JsError + Response :=
  if i <? 2 then inl (Error "got status: 429 Too Many Requests")
  else inr {| text := Some "[]" |}.

Lemma analyzeDocumentContent_retries_witness :
  exists k,
    k < 3 /\
    generateWithRetry twoRateLimits defaultRetries
    = (settles twoRateLimits k, backoff 0 k) /\
    (forall j, j < k ->
               exists e, twoRateLimits j = inl e /\ isRetryable e = true) /\
    (forall e, twoRateLimits k = inl e -> isRetryable e = true -> k = 2) /\
    snd (analyzeDocumentContent (fun _ => inr (PArray [])) (fun _ => "id")
           (Some "key") twoRateLimits)
    = backoff 0 k /\
    (forall e, twoRateLimits k = inl e ->
               fst (analyzeDocumentContent (fun _ => inr (PArray []))
                      (fun _ => "id") (Some "key") twoRateLimits) = inr []) /\
    (exists records,
       fst (analyzeDocumentContent (fun _ => inr (PArray [])) (fun _ => "id")
              (Some "key") twoRateLimits)
       = inr records).
Proof.
  apply (analyzeDocumentContent_retries (fun _ => inr (PArray []))
           (fun _ => "id") (Some "key") twoRateLimits).
  reflexivity.
Defined.

(** C2 as stated fails in its second half: a failure that is not
    transient (no ['429'], no ['503'] in its message) does not reach the
    caller; after the one request the client returns the empty list, a
    success value. *)
Lemma permanent_failure_returns_empty_list :
  isRetryable (Error "got status: 400 Bad Request") = false /\
  analyzeDocumentContent (fun _ => inr (PArray [])) (fun _ => "id")
    (Some "key") (fun _ => inl (Error "got status: 400 Bad Request"))
  = (inr [], [Request 0]).
Proof. split; reflexivity. Qed.


End RetrySpec.

Module ResultStoreSpec.
Import Js GeminiService AppTypes Samples.

(** C10.  For every store, identifier, field name and value, the
    field-level update keeps the length of the record list and the place
    of every record; a record whose identifier differs from the target is
    left as it is; in a record whose identifier matches, the named field
    becomes the value and every other field is left as it is; and when no
    record has the identifier, the list is left as it is. *)
Theorem handleUpdateResult_frame (id field value : string)
    (prev : list (gmap string JsValue)) :
  length (handleUpdateResult id field value prev) = length prev /\
  (forall i item,
     prev !! i = Some item ->
     prop item "id" <> JString id ->
     handleUpdateResult id field value prev !! i = Some item) /\
  (forall i item,
     prev !! i = Some item ->
     prop item "id" = JString id ->
     exists item',
       handleUpdateResult id field value prev !! i = Some item' /\
       item' !! field = Some (JString value) /\
       forall k, k <> field -> item' !! k = item !! k) /\
  ((forall item, item ∈ prev -> prop item "id" <> JString id) ->
   handleUpdateResult id field value prev = prev).
Proof.
  assert (forall item,
            strict_eq_string (prop item "id") id = true
            <-> prop item "id" = JString id) as Heq.
  { intros item. unfold strict_eq_string.
    destruct (prop item "id"); try (split; [done | congruence]).
    rewrite String.eqb_eq. split; [by intros -> | congruence]. }
  unfold handleUpdateResult.
  split; [apply length_fmap |]. split; [| split].
  - intros i item Hi Hne. rewrite list_lookup_fmap, Hi. simpl.
    destruct (strict_eq_string (prop item "id") id) eqn:E; [| done].
    by apply Heq in E.
  - intros i item Hi Hid. rewrite list_lookup_fmap, Hi. simpl.
    apply Heq in Hid. rewrite Hid.
    eexists. split; [done |].
    split; [apply lookup_insert_eq |].
    intros k Hk. by apply lookup_insert_ne.
  - intros Hnone. induction prev as [|item prev IH]; [done |].
    rewrite fmap_cons. f_equal.
    + destruct (strict_eq_string (prop item "id") id) eqn:E; [| done].
      apply Heq in E. exfalso. apply (Hnone item); [apply list_elem_of_here | done].
    + apply IH. intros item' Hin. apply Hnone. by apply list_elem_of_further.
Qed.

Lemma handleUpdateResult_frame_witness :
  handleUpdateResult "q2" "question" "new text"
    [record "q1" "one"; record "q2" "two"; record "q3" "three"] !! 0
  = Some (record "q1" "one") /\
  (exists item',
     handleUpdateResult "q2" "question" "new text"
       [record "q1" "one"; record "q2" "two"; record "q3" "three"] !! 1
     = Some item' /\
     item' !! "question" = Some (JString "new text") /\
     forall k, k <> "question" -> item' !! k = record "q2" "two" !! k) /\
  handleUpdateResult "q9" "question" "new text"
    [record "q1" "one"; record "q2" "two"; record "q3" "three"]
  = [record "q1" "one"; record "q2" "two"; record "q3" "three"].
Proof.
  split; [| split].
  - apply (proj1 (proj2 (handleUpdateResult_frame "q2" "question" "new text"
             [record "q1" "one"; record "q2" "two"; record "q3" "three"]))
             0 (record "q1" "one")); [reflexivity | discriminate].
  - apply (proj1 (proj2 (proj2
             (handleUpdateResult_frame "q2" "question" "new text"
                [record "q1" "one"; record "q2" "two"; record "q3" "three"])))
             1 (record "q2" "two")); reflexivity.
  - apply (proj2 (proj2 (proj2
             (handleUpdateResult_frame "q9" "question" "new text"
                [record "q1" "one"; record "q2" "two"; record "q3" "three"])))).
    intros item Hin.
    repeat (apply elem_of_cons in Hin as [-> | Hin]; [discriminate |]).
    by apply elem_of_nil in Hin.
Defined.

End ResultStoreSpec.

Module PartialFailureSpec.
Import Js GeminiService AppTypes AppSequential.

(** What a content unit contributes: its records, or nothing when its
    extraction failed. *)
Definition contribution (outcome : JsError + list (gmap string JsValue)) :
    list (gmap string JsValue) :=
  match outcome with
  | inr records => records
  | inl _ => []
  end.

Lemma extractLoop_spec (label : string) (n : nat)
    (analyze : nat -> JsError + list (gmap string JsValue)) :
  forall remaining i st,
    (forall j e, i <= j < i + remaining -> analyze j = inl e ->
                 isCritical e = inr false) ->
    fst (extractLoop label n analyze remaining i st) = inr tt /\
    results (snd (extractLoop label n analyze remaining i st))
    = results st
      ++ List.concat ((fun j => contribution (analyze j)) <$> seq i remaining)
    /\
    (0 < remaining ->
     current (progress (snd (extractLoop label n analyze remaining i st)))
     = i + remaining).
Proof.
  induction remaining as [|remaining IH]; intros i st Hok.
  - simpl. split; [done |]. split; [by rewrite app_nil_r | lia].
  - cbn [extractLoop seq fmap list_fmap List.concat].
    destruct (analyze i) as [e|pageData] eqn:Hi.
    + rewrite (Hok i e) by (done || lia). simpl.
      match goal with
      | |- context [extractLoop _ _ _ _ _ ?s] =>
          destruct (IH (S i) s) as (Hout & Hres & Hcur)
      end.
      { intros j e' Hj. apply Hok. lia. }
      split; [done |]. split; [by rewrite Hres |].
      intros _. destruct remaining as [|remaining]; [simpl; lia |].
      rewrite Hcur by lia. lia.
    + match goal with
      | |- context [extractLoop _ _ _ _ _ ?s] =>
          destruct (IH (S i) s) as (Hout & Hres & Hcur)
      end.
      { intros j e' Hj. apply Hok. lia. }
      split; [done |]. split.
      * rewrite Hres. simpl.
        destruct (0 <? length pageData) eqn:Hlen; simpl.
        -- by rewrite app_assoc.
        -- apply Nat.ltb_ge in Hlen. destruct pageData; [| simpl in Hlen; lia].
           done.
      * intros _. destruct remaining as [|remaining].
        -- simpl. destruct (0 <? length pageData); simpl; lia.
        -- rewrite Hcur by lia. lia.
Qed.

(** C6.  When every content unit that fails extraction fails with an
    error that is not critical, the run goes through all the units and
    ends normally; a failing unit adds no record; the store ends with the
    records of the other units, in unit order, after what it held; so the
    number of records gained is the sum of the numbers of records the
    units that did not fail returned. *)
Theorem extractUnits_partial_failure (label : string) (units : list string)
    (analyze : nat -> JsError + list (gmap string JsValue))
    (st : AppState) :
  (forall j e, j < length units -> analyze j = inl e ->
               isCritical e = inr false) ->
  fst (extractUnits label units analyze st) = inr tt /\
  (0 < length units ->
   current (progress (snd (extractUnits label units analyze st)))
   = length units) /\
  results (snd (extractUnits label units analyze st))
  = results st
    ++ List.concat ((fun j => contribution (analyze j))
                      <$> seq 0 (length units)) /\
  length (results (snd (extractUnits label units analyze st)))
  = length (results st)
    + list_sum ((fun j => length (contribution (analyze j)))
                  <$> seq 0 (length units)) /\
  (forall j e, analyze j = inl e -> contribution (analyze j) = []).
Proof.
  intros Hok. unfold extractUnits.
  destruct (extractLoop_spec label (length units) analyze (length units) 0 st)
    as (Hout & Hres & Hcur).
  { intros j e Hj. apply Hok. lia. }
  split; [done |]. split; [intros H; by rewrite Hcur |].
  split; [done |]. split.
  - rewrite Hres, length_app, List.length_concat. f_equal.
    by rewrite <- list_fmap_compose.
  - intros j e H. by rewrite H.
Qed.

(** Five units; the second fails with an error that is not critical. *)
Definition fiveUnits (j : nat) : JsError + list (gmap string JsValue) :=
  match j with
  | 1 => inl (Error "Failed to fetch")
  | _ => inr [Samples.record (pretty j) "question"]
  end.

Definition emptyStore : AppState :=
  {| results := [];
     progress := {| total := 5; current := 0; status := extracting;
                    message := None |} |}.

Lemma extractUnits_partial_failure_witness :
  fst (extractUnits "page" ["p1"; "p2"; "p3"; "p4"; "p5"] fiveUnits
         emptyStore) = inr tt /\
  length (results (snd (extractUnits "page" ["p1"; "p2"; "p3"; "p4"; "p5"]
                          fiveUnits emptyStore))) = 4.
Proof.
  destruct (extractUnits_partial_failure "page"
              ["p1"; "p2"; "p3"; "p4"; "p5"] fiveUnits emptyStore)
    as (Hout & _ & _ & Hlen & _).
  - intros j e Hj He.
    do 5 (destruct j as [|j]; [try discriminate; injection He as <-;
                               reflexivity |]).
    simpl in Hj. lia.
  - split; [exact Hout | exact Hlen].
Defined.

End PartialFailureSpec.

Module CancelSpec.
Import Js GeminiService AppTypes App.

Section Run.
Variable winner : JsError -> list JsError -> JsError.
Variable groups : list (list string).
Variable analyze : nat -> JsError + list (gmap string JsValue).

Local Abbreviation step := (step winner groups analyze).
Local Abbreviation run := (run winner groups analyze).

(** [processGroups] has returned, or has thrown. *)
Definition ended (p : Pc) : Prop := p = Finished \/ exists e, p = Threw e.

(** The events of a run during which [handleProcess] is not started again:
    [processGroups] going on, and the cancel button. *)
Definition same_run (ev : Event) : Prop :=
  match ev with
  | Resume | Cancel => True
  | Restart _ => False
  end.

Lemma enterWave_results (i k : nat) (c : Config) :
  results (enterWave groups i k c) = results c.
Proof.
  unfold enterWave. by repeat case_match.
Qed.

Lemma enterWave_aborted (i k : nat) (c : Config) :
  abortRef c = true ->
  enterWave groups i k c = set_pc Finished c.
Proof. intros H. unfold enterWave. rewrite H. by case_match. Qed.

Lemma leaveWave_aborted (i k : nat) (c : Config) :
  abortRef c = true ->
  leaveWave winner groups analyze i k c = set_pc Finished c \/
  exists e, leaveWave winner groups analyze i k c = set_pc (Threw e) c.
Proof.
  intros H. unfold leaveWave. rewrite H.
  destruct (Promise_all winner (analyze <$> wave groups i));
    [right; by eexists | by left].
Qed.

(** One event of the same run in a configuration whose flag is set. *)
Lemma step_aborted (ev : Event) (c : Config) :
  same_run ev ->
  abortRef c = true ->
  abortRef (step ev c) = true /\
  dispatched (step ev c) = dispatched c /\
  results (step ev c) = results c.
Proof.
  intros Hev H. destruct ev as [| |type]; simpl; [| by case_match | done].
  destruct (pc c) as [|i k| |e]; [| | done | done].
  - by rewrite enterWave_aborted.
  - by destruct (leaveWave_aborted i k c H) as [-> | [e ->]].
Qed.

Lemma resume_aborted (c : Config) :
  abortRef c = true -> pc c = Start \/ (exists i k, pc c = Awaiting i k) ->
  ended (pc (step Resume c)).
Proof.
  intros H [Hpc | (i & k & Hpc)]; simpl; rewrite Hpc.
  - rewrite enterWave_aborted by done. by left.
  - destruct (leaveWave_aborted i k c H) as [-> | [e ->]];
      [by left | right; by exists e].
Qed.

(** Within a run the store only grows. *)
Lemma step_results_prefix (ev : Event) (c : Config) :
  same_run ev ->
  results c `prefix_of` results (step ev c).
Proof.
  intros Hev. destruct ev as [| |type]; simpl; [| by case_match | done].
  destruct (pc c) as [|i k| |e]; [| | done | done].
  - by rewrite enterWave_results.
  - unfold leaveWave.
    destruct (Promise_all winner (analyze <$> wave groups i)); [done |].
    destruct (abortRef c); [done |].
    rewrite enterWave_results. simpl.
    case_match; [by apply prefix_app_r | done].
Qed.

Lemma run_results_prefix (events : list Event) (c : Config) :
  Forall same_run events ->
  results c `prefix_of` results (run events c).
Proof.
  intros Hev. revert c.
  induction Hev as [|ev events Hsame _ IH]; intros c; [done |].
  simpl. etrans; [by apply (step_results_prefix ev) | apply IH].
Qed.

(** What the check at the wave boundary does achieve.  From a configuration
    in which the flag is set, as long as [handleProcess] is not started
    again: no further group is passed to the extraction client, the store
    keeps exactly the records it had, and the flag stays set; the next time
    the loop runs, it ends.  Pressing cancel sets the flag and leaves the
    store and the groups dispatched as they are. *)
Lemma cancel_stops_same_run (events : list Event) (c : Config) :
  Forall same_run events ->
  abortRef c = true ->
  (dispatched (run events c) = dispatched c /\
   results (run events c) = results c /\
   abortRef (run events c) = true) /\
  (pc c = Start \/ (exists i k, pc c = Awaiting i k) ->
   ended (pc (step Resume c))) /\
  (forall c0,
     abortRef (handleCancel c0) = true /\
     results (handleCancel c0) = results c0 /\
     dispatched (handleCancel c0) = dispatched c0).
Proof.
  intros Hev H. split; [| split].
  - revert c H. induction Hev as [|ev events Hsame _ IH]; intros c H; [done |].
    simpl. destruct (step_aborted ev c Hsame H) as (Ha & Hd & Hr).
    destruct (IH _ Ha) as (Hd' & Hr' & Ha').
    by rewrite Hd', Hr', Hd, Hr.
  - by apply resume_aborted.
  - done.
Qed.

End Run.

(** Five groups, each giving one record. *)
Definition fiveGroups : list (list string) :=
  [["p1"]; ["p2"]; ["p3"]; ["p4"]; ["p5"]].

Definition oneRecordEach (k : nat) : JsError + list (gmap string JsValue) :=
  inr [Samples.record (pretty k) "question"].

(** [processGroups] has just been called by [handleProcess]. *)
Definition initial : Config :=
  {| results := [];
     progress := {| total := 5; current := 0; status := extracting;
                    message := Some "AI Extraction in Progress..." |};
     abortRef := false; pc := Start; dispatched := [] |}.

(** The first wave is in flight and the user has pressed cancel. *)
Definition cancelled : Config :=
  run (fun e _ => e) fiveGroups oneRecordEach [Resume; Cancel] initial.

(** Cancelled and left alone, the call ends at the wave boundary. *)
Example cancelled_run_ends :
  dispatched (run (fun e _ => e) fiveGroups oneRecordEach
                [Resume; Resume; Resume] cancelled) = [0; 1; 2] /\
  results (run (fun e _ => e) fiveGroups oneRecordEach
             [Resume; Resume; Resume] cancelled) = [] /\
  pc (run (fun e _ => e) fiveGroups oneRecordEach
        [Resume; Resume; Resume] cancelled) = Finished.
Proof. repeat split; reflexivity. Qed.

(** C5 fails on the code.  The first wave (groups 0, 1, 2) is in flight when
    the user presses cancel: the flag is set, and the status, now [idle],
    puts the start button back on show.  The user presses it before the wave
    has settled: [handleProcess] clears the flag, which the suspended call
    of [processGroups] shares.  When the wave settles, that call finds the
    flag cleared at the wave boundary, appends the records of the wave and
    dispatches groups 3 and 4, although the flag had been set. *)
Theorem restart_revives_cancelled_run :
  abortRef cancelled = true /\
  dispatched cancelled = [0; 1; 2] /\
  isProcessing (progress cancelled) = false /\
  dispatched (run (fun e _ => e) fiveGroups oneRecordEach
                [Restart PDF; Resume] cancelled) = [0; 1; 2; 3; 4] /\
  pc (run (fun e _ => e) fiveGroups oneRecordEach
        [Restart PDF; Resume] cancelled) = Awaiting 3 3 /\
  length (results (run (fun e _ => e) fiveGroups oneRecordEach
                     [Restart PDF; Resume] cancelled)) = 3.
Proof. repeat split; reflexivity. Qed.

End CancelSpec.


(** * More of the code, and what it shows *)

(** ** [App.tsx]: grouping the content units *)

Module AppGroups.
Import Js.

(** The loop of [chunkArray]; one unit of [fuel] is one test of the loop
    condition, [None] the loop still running when the fuel is used up. *)
Fixpoint chunkArray_loop {A : Type} (fuel : nat) (array : list A)
    (size i : nat) (result : list (list A)) : option (list (list A)) :=
  match fuel with
  | 0 => None
  | S fuel' =>
      if i <? length array
      then chunkArray_loop fuel' array size (i + size)
             (result ++ [slice array i (i + size)])
      else Some result
  end.

(** [chunkArray(array, size)] *)
Definition chunkArray {A : Type} (array : list A) (size : nat) :
    option (list (list A)) :=
  chunkArray_loop (S (length array)) array size 0 [].

(** From index [i] on, with enough fuel: the groups added are the rest of
    the array, cut every [size] items. *)
Lemma chunkArray_loop_spec {A : Type} (array : list A) (size : nat) :
  1 <= size ->
  forall (fuel i : nat) (result : list (list A)),
    length array - i < fuel ->
    exists groups,
      chunkArray_loop fuel array size i result = Some (result ++ groups) /\
      List.concat groups = drop i array /\
      Forall (fun g => 1 <= length g <= size) groups /\
      (forall k g, groups !! k = Some g -> S k < length groups ->
                   length g = size) /\
      length array - i <= length groups * size < length array - i + size.
Proof.
  intros Hsize. induction fuel as [|fuel IH]; intros i result Hfuel; [lia |].
  simpl. destruct (i <? length array) eqn:Hi.
  - apply Nat.ltb_lt in Hi.
    destruct (IH (i + size) (result ++ [slice array i (i + size)]))
      as (groups & Hloop & Hcat & Hlen & Hfull & Hcount); [lia |].
    exists (slice array i (i + size) :: groups).
    assert (length (slice array i (i + size)) = size `min` (length array - i))
      as Hslice.
    { unfold slice. rewrite length_take, length_drop. lia. }
    split; [by rewrite Hloop, <- app_assoc |].
    split; [| split; [| split]].
    + simpl. rewrite Hcat. unfold slice.
      replace (i + size - i) with size by lia.
      rewrite <- drop_drop. apply take_drop.
    + constructor; [lia | done].
    + intros [|k] g Hk Hlast; simpl in *.
      * injection Hk as <-. rewrite Hslice.
        destruct groups as [|g' groups]; [simpl in Hlast; lia |].
        simpl in Hcount. lia.
      * apply (Hfull k); [done | lia].
    + destruct groups as [|g' groups]; simpl in *; lia.
  - apply Nat.ltb_ge in Hi. exists []. rewrite app_nil_r.
    split; [done |]. split; [by rewrite drop_ge |].
    split; [done |]. split; [done | simpl; lia].
Qed.

End AppGroups.

Module GroupsSpec.
Import Js AppGroups.

(** X1.  For every array and every group size of at least 1, [chunkArray]
    ends; its groups, put end to end, are the array; no group is empty or
    longer than the size; every group but the last has exactly the size; and
    there are as many groups as the size asks for, [ceil (n / size)]. *)
Theorem chunkArray_partition {A : Type} (array : list A) (size : nat) :
  1 <= size ->
  exists groups,
    chunkArray array size = Some groups /\
    List.concat groups = array /\
    Forall (fun g => 1 <= length g <= size) groups /\
    (forall k g, groups !! k = Some g -> S k < length groups ->
                 length g = size) /\
    length array <= length groups * size < length array + size.
Proof.
  intros Hsize.
  destruct (chunkArray_loop_spec array size Hsize (S (length array)) 0 [])
    as (groups & Hloop & Hcat & Hlen & Hfull & Hcount); [lia |].
  exists groups. split; [done |]. split; [done |]. split; [done |].
  split; [done | lia].
Qed.

Lemma chunkArray_partition_witness :
  exists groups,
    chunkArray ["p1"; "p2"; "p3"; "p4"; "p5"; "p6"] 4 = Some groups /\
    List.concat groups = ["p1"; "p2"; "p3"; "p4"; "p5"; "p6"] /\
    length groups = 2.
Proof.
  destruct (chunkArray_partition ["p1"; "p2"; "p3"; "p4"; "p5"; "p6"] 4)
    as (groups & Hrun & Hcat & _ & _ & Hcount); [lia |].
  exists groups. split; [exact Hrun |]. split; [exact Hcat |].
  simpl in Hcount. lia.
Defined.

End GroupsSpec.

(** ** [chunkHtmlContent]: what the chunks look like *)

Module ChunkShapeSpec.
Import JsString Chunker.

(** The loop closes no empty chunk. *)
Lemma pack_nonempty (m : nat) (ps chunks chunks' : list string)
    (cur cur' : string) :
  Forall (fun c => 0 < length c) chunks ->
  pack m ps chunks cur = (chunks', cur') ->
  Forall (fun c => 0 < length c) chunks'.
Proof.
  revert chunks cur.
  induction ps as [|part rest IH]; intros chunks cur Hall H; simpl in H.
  - by injection H as <- <-.
  - destruct (m <? length cur + length part) eqn:Hover;
      [destruct (0 <? length cur) eqn:Hcur |];
      apply IH in H; try done; apply Forall_app; split; try done;
      apply Forall_singleton.
    + by apply Nat.ltb_lt in Hcur.
    + apply Nat.ltb_lt in Hover. apply Nat.ltb_ge in Hcur. lia.
Qed.

(** X2.  [chunkHtmlContent] never returns the empty list, and it returns an
    empty chunk for the empty document only: either every chunk has at least
    one code unit, or the document is empty and the result is the one empty
    chunk. *)
Theorem chunkHtmlContent_nonempty (html : string) (maxChunkSize : nat) :
  chunkHtmlContent html maxChunkSize <> [] /\
  (Forall (fun c => 0 < length c) (chunkHtmlContent html maxChunkSize) \/
   (html = "" /\ chunkHtmlContent html maxChunkSize = [""])).
Proof.
  rewrite chunkHtmlContent_unfold.
  destruct (length html <=? maxChunkSize) eqn:Hsmall.
  - split; [done |].
    destruct html as [|c html]; [by right |].
    left. apply Forall_singleton. unfold length. simpl. lia.
  - apply Nat.leb_gt in Hsmall.
    destruct (pack maxChunkSize (paragraphs html) [] "") as [chunks cur] eqn:E.
    pose proof (pack_concat _ _ _ _ _ _ E) as Hcat.
    rewrite concat_paragraphs in Hcat. simpl in Hcat.
    apply pack_nonempty in E; [| done].
    assert (Forall (fun c => 0 < length c)
              (if 0 <? length cur then chunks ++ [cur] else chunks)) as Hall.
    { destruct (0 <? length cur) eqn:Hcur; [| done].
      apply Forall_app. split; [done |]. apply Forall_singleton.
      by apply Nat.ltb_lt in Hcur. }
    split; [| by left].
    destruct (0 <? length cur) eqn:Hcur; [by destruct chunks |].
    intros ->. apply Nat.ltb_ge in Hcur.
    assert (cur = "") as -> by (apply length_zero; lia).
    simpl in Hcat. autorewrite with jsstring in Hcat. subst html.
    unfold length in Hsmall. simpl in Hsmall. lia.
Qed.

(** Two neighbours in a list of chunks do not fit one budget. *)
Definition tight (m : nat) (chunks : list string) : Prop :=
  forall k c1 c2,
    chunks !! k = Some c1 -> chunks !! S k = Some c2 ->
    m < length c1 + length c2.

Lemma tight_snoc (m : nat) (chunks : list string) (c : string) :
  tight m chunks ->
  (forall x, last chunks = Some x -> m < length x + length c) ->
  tight m (chunks ++ [c]).
Proof.
  intros Htight Hlast k c1 c2 H1 H2.
  destruct (decide (S k < List.length chunks)) as [Hin | Hout].
  - rewrite lookup_app_l in H1 by lia. rewrite lookup_app_l in H2 by lia.
    by apply (Htight k).
  - pose proof (lookup_lt_Some _ _ _ H2) as Hk. rewrite length_app in Hk.
    simpl in Hk. assert (S k = List.length chunks) as Hk' by lia.
    rewrite lookup_app_l in H1 by lia.
    rewrite lookup_app_r in H2 by lia.
    replace (S k - List.length chunks) with 0 in H2 by lia.
    injection H2 as <-. apply Hlast. rewrite last_lookup.
    by replace (Nat.pred (List.length chunks)) with k by lia.
Qed.

(** The loop keeps the chunks tight, the open chunk included. *)
Lemma pack_tight (m : nat) (ps chunks chunks' : list string)
    (cur cur' : string) :
  tight m chunks ->
  (forall x, last chunks = Some x -> m < length x + length cur) ->
  pack m ps chunks cur = (chunks', cur') ->
  tight m chunks' /\
  (forall x, last chunks' = Some x -> m < length x + length cur').
Proof.
  revert chunks cur.
  induction ps as [|part rest IH]; intros chunks cur Htight Hlast H;
    simpl in H.
  - by injection H as <- <-.
  - destruct (m <? length cur + length part) eqn:Hover.
    + apply Nat.ltb_lt in Hover.
      destruct (0 <? length cur) eqn:Hcur.
      * apply IH in H; [done | by apply tight_snoc |].
        intros x. rewrite last_snoc. by intros [= <-].
      * apply Nat.ltb_ge in Hcur.
        apply IH in H; [done | |].
        -- apply tight_snoc; [done |].
           intros x Hx. specialize (Hlast x Hx). lia.
        -- intros x. rewrite last_snoc. intros [= <-].
           change (length "") with 0. lia.
    + apply IH in H; [done | done |].
      intros x Hx. specialize (Hlast x Hx). rewrite length_append. lia.
Qed.

(** X3.  The packing is greedy: any two chunks that follow each other in
    the result of [chunkHtmlContent] are together longer than the maximum,
    so no two neighbours could have been sent as one chunk. *)
Theorem chunkHtmlContent_tight (html : string) (maxChunkSize : nat)
    (k : nat) (c1 c2 : string) :
  chunkHtmlContent html maxChunkSize !! k = Some c1 ->
  chunkHtmlContent html maxChunkSize !! S k = Some c2 ->
  maxChunkSize < length c1 + length c2.
Proof.
  rewrite chunkHtmlContent_unfold.
  destruct (length html <=? maxChunkSize); [by destruct k |].
  destruct (pack maxChunkSize (paragraphs html) [] "") as [chunks cur] eqn:E.
  apply pack_tight in E; [| by intros ? ? ? ? | done].
  destruct E as [Htight Hlast].
  destruct (0 <? length cur); [| by apply Htight].
  by apply tight_snoc.
Qed.

Lemma chunkHtmlContent_tight_witness :
  chunkHtmlContent "<p>one</p><p>two</p><p>three</p>" 20 !! 0
  = Some "<p>one</p><p>two</p>" /\
  chunkHtmlContent "<p>one</p><p>two</p><p>three</p>" 20 !! 1
  = Some "<p>three</p>" /\
  20 < length "<p>one</p><p>two</p>" + length "<p>three</p>".
Proof.
  split; [reflexivity |]. split; [reflexivity |].
  apply (chunkHtmlContent_tight "<p>one</p><p>two</p><p>three</p>" 20 0);
    reflexivity.
Defined.

End ChunkShapeSpec.

(** ** The extraction client: requests, rejections, records *)

Module ClientSpec.
Import Js GeminiService GeminiRetry.

(** The number of requests made, and the time spent waiting, in ms. *)
Fixpoint requests (events : list Event) : nat :=
  match events with
  | [] => 0
  | Request _ :: events' => S (requests events')
  | Wait _ :: events' => requests events'
  end.

Fixpoint totalWait (events : list Event) : nat :=
  match events with
  | [] => 0
  | Request _ :: events' => totalWait events'
  | Wait ms :: events' => ms + totalWait events'
  end.

Lemma backoff_requests (i n : nat) :
  requests (RetrySpec.backoff i n) = S n.
Proof. revert i. induction n as [|n IH]; intros i; simpl; [done | by rewrite IH]. Qed.

Lemma backoff_totalWait (i n : nat) :
  totalWait (RetrySpec.backoff i n) = 1000 * (2 ^ i * (2 ^ n - 1)).
Proof.
  revert i. induction n as [|n IH]; intros i.
  - simpl. lia.
  - cbn [RetrySpec.backoff totalWait]. rewrite IH.
    rewrite !Nat.pow_succ_r'.
    assert (1 <= 2 ^ n) by (apply Nat.neq_0_lt_0, Nat.pow_nonzero; lia).
    nia.
Qed.

(** X4.  Whatever the requests settle to, [generateWithRetry] with
    [retries >= 1] makes at least one request and at most [retries]; having
    made [r] requests it has waited [1000 * (2 ^ (r - 1) - 1)] ms in all, at
    most [1000 * (2 ^ (retries - 1) - 1)] ms: 3000 ms for the default of 3. *)
Theorem generateWithRetry_bounds
    (generateContent : nat -> JsError + Response) (retries : nat) :
  1 <= retries ->
  1 <= requests (snd (generateWithRetry generateContent retries)) <= retries /\
  totalWait (snd (generateWithRetry generateContent retries))
  = 1000 * (2 ^ (requests (snd (generateWithRetry generateContent retries)) - 1)
            - 1) /\
  totalWait (snd (generateWithRetry generateContent retries))
  <= 1000 * (2 ^ (retries - 1) - 1).
Proof.
  intros Hr. destruct retries as [|remaining]; [lia |].
  unfold generateWithRetry.
  destruct (RetrySpec.retry_loop_spec generateContent (S remaining)
              remaining 0 eq_refl) as (k & Hk & -> & _ & _).
  cbn [snd]. rewrite Nat.sub_0_r, backoff_requests, backoff_totalWait.
  cbn [Nat.pow]. replace (S k - 1) with k by lia.
  split; [lia |]. split; [lia |].
  assert (2 ^ k <= 2 ^ (S remaining - 1))
    by (apply Nat.pow_le_mono_r; lia).
  lia.
Qed.

(** The service is unavailable at every request. *)
Definition unavailable (i : nat) : JsError + Response :=
  inl (Error "got status: 503 Service Unavailable").

Lemma generateWithRetry_bounds_witness :
  1 <= requests (snd (generateWithRetry unavailable 3)) <= 3 /\
  totalWait (snd (generateWithRetry unavailable 3)) = 3000.
Proof.
  destruct (generateWithRetry_bounds unavailable 3)
    as (Hreq & Hwait & _); [lia |].
  split; [exact Hreq | exact Hwait].
Defined.

Section Client.
Variable JSON_parse : string -> JsError + Parsed.
Variable uuid : nat -> string.

(** X5.  The client with retries rejects in one case only, the missing API
    key (no key, or the empty string), and then before any request; with a
    key it returns a list, whatever the requests and the parser do. *)
Theorem analyzeDocumentContent_rejects_iff (apiKey : option string)
    (generateContent : nat -> JsError + Response) :
  ((exists e,
      fst (analyzeDocumentContent JSON_parse uuid apiKey generateContent)
      = inl e) <->
   missing apiKey = true) /\
  (missing apiKey = true ->
   snd (analyzeDocumentContent JSON_parse uuid apiKey generateContent) = []).
Proof.
  unfold analyzeDocumentContent.
  destruct (missing apiKey) eqn:Hkey.
  - split; [| done]. split; [done |]. intros _. by eexists.
  - destruct (generateWithRetry generateContent defaultRetries)
      as [result events].
    split; [| done]. split; [| done].
    intros [e He]. by destruct (tryBlock JSON_parse uuid result).
Qed.

End Client.

Lemma analyzeDocumentContent_rejects_iff_witness :
  snd (analyzeDocumentContent (fun _ => inr PNotArray) (fun _ => "id")
         (Some "") unavailable) = [].
Proof.
  apply (proj2 (analyzeDocumentContent_rejects_iff (fun _ => inr PNotArray)
                  (fun _ => "id") (Some "") unavailable)).
  reflexivity.
Defined.

(** The four properties the post-processing writes. *)
Definition written (key : string) : Prop :=
  key = "id" \/ key = "choiceE" \/ key = "passage" \/ key = "correctAnswer".

(** One element: what [postProcess] writes and what it leaves. *)
Lemma postProcess_frame (id : string) (item record : gmap string JsValue) :
  postProcess id item = inr record ->
  record !! "id" = Some (JString id) /\
  (exists answer,
     record !! "correctAnswer" = Some (JString answer) /\
     forall c, In c (list_ascii_of_string answer) ->
               JsString.in_A_to_E c = true) /\
  record !! "choiceE" = Some (or_undefined (prop item "choiceE")) /\
  record !! "passage" = Some (or_undefined (prop item "passage")) /\
  (forall key, ~ written key -> record !! key = item !! key).
Proof.
  unfold postProcess.
  destruct (normalizeAnswer (prop item "correctAnswer")) as [e|answer] eqn:Hn;
    [done |].
  intros [= <-].
  split; [by simplify_map_eq |]. split; [| split; [| split]].
  - exists answer. split; [by simplify_map_eq |].
    unfold normalizeAnswer in Hn.
    destruct (truthy (prop item "correctAnswer")).
    + destruct (prop item "correctAnswer"); try done.
      injection Hn as <-. apply ExtractionSpec.remove_non_A_to_E_alphabet.
    + injection Hn as <-. by intros c [].
  - by simplify_map_eq.
  - by simplify_map_eq.
  - intros key Hkey. unfold written in Hkey.
    rewrite !lookup_insert_ne; [done | | | |]; intros <-; tauto.
Qed.

(** X6.  When the map over the parsed array returns, it returns one record
    per element, in order.  The record of element [j] carries the [j]-th
    identifier drawn, a [correctAnswer] that is a string of letters [A]..[E]
    only, [choiceE] and [passage] as read or [undefined] when they were
    falsy, and every other property of the element as it was. *)
Theorem postProcessAll_records (uuid : nat -> string) (k : nat)
    (items records : list (gmap string JsValue)) :
  postProcessAll uuid k items = inr records ->
  length records = length items /\
  forall j item,
    items !! j = Some item ->
    exists record,
      records !! j = Some record /\
      record !! "id" = Some (JString (uuid (k + j))) /\
      (exists answer,
         record !! "correctAnswer" = Some (JString answer) /\
         forall c, In c (list_ascii_of_string answer) ->
                   JsString.in_A_to_E c = true) /\
      record !! "choiceE" = Some (or_undefined (prop item "choiceE")) /\
      record !! "passage" = Some (or_undefined (prop item "passage")) /\
      (forall key, ~ written key -> record !! key = item !! key).
Proof.
  revert k records. induction items as [|item items IH]; intros k records H.
  - simpl in H. injection H as <-. split; [done |]. by intros j item.
  - cbn [postProcessAll] in H.
    destruct (postProcess (uuid k) item) as [e|record] eqn:Hone; [done |].
    destruct (postProcessAll uuid (S k) items) as [e|rest] eqn:Hrest;
      [done |].
    injection H as <-. destruct (IH _ _ Hrest) as [Hlen Hall].
    split; [simpl; by rewrite Hlen |].
    intros [|j] item' Hj; simpl in Hj.
    + injection Hj as <-. exists record. split; [done |].
      rewrite Nat.add_0_r. by apply postProcess_frame.
    + destruct (Hall j item' Hj) as (record' & Hlook & Hrec).
      exists record'. split; [done |].
      by replace (k + S j) with (S k + j) by lia.
Qed.

(** A raw element with the given answer, and one extra property. *)
Definition element (answer : JsValue) : gmap string JsValue :=
  <["question" := JString "Capital of France?"]>
    (<["choiceA" := JString "Paris"]>
       (<["choiceB" := JString "Rome"]>
          (<["choiceC" := JString "Oslo"]>
             (<["choiceD" := JString "Bern"]>
                (<["page" := JNumber 2]>
                   (<["correctAnswer" := answer]> ∅)))))).

Lemma postProcessAll_records_witness :
  exists records,
    postProcessAll (fun k => "id-" +:+ pretty k) 0
      [element (JString "a"); element (JString "")] = inr records /\
    length records = 2.
Proof.
  eexists. split; [reflexivity |].
  apply (postProcessAll_records (fun k => "id-" +:+ pretty k) 0
           [element (JString "a"); element (JString "")]).
  reflexivity.
Defined.

Section Malformed.
Variable JSON_parse : string -> JsError + Parsed.
Variable uuid : nat -> string.

(** What the client hands to [JSON.parse]. *)
Definition cleaned (rawText : string) : string :=
  JsString.trim
    (JsString.remove_all "```" (JsString.remove_all "```json" rawText)).

(** An answer that is truthy and not a string: a number other than 0,
    [true], an array, an object. *)
Definition notAString (v : JsValue) : Prop :=
  truthy v = true /\ forall s, v <> JString s.

Lemma postProcessAll_malformed (k : nat)
    (items : list (gmap string JsValue)) :
  (exists item, item ∈ items /\ notAString (prop item "correctAnswer")) ->
  exists e, postProcessAll uuid k items = inl e.
Proof.
  intros (item & Hin & Htruthy & Hnot). revert k.
  induction items as [|head items IH]; intros k;
    [by apply elem_of_nil in Hin |].
  cbn [postProcessAll]. apply elem_of_cons in Hin as [<- | Hin].
  - unfold postProcess, normalizeAnswer. rewrite Htruthy.
    destruct (prop item "correctAnswer") eqn:Hv; try by eexists.
    by destruct (Hnot s).
  - destruct (postProcess (uuid k) head); [by eexists |].
    destruct (IH Hin (S k)) as [e ->]. by eexists.
Qed.

(** X7.  One malformed element costs the whole unit.  When the first
    request succeeds and the text parses to an array in which some element
    has a [correctAnswer] that is truthy and not a string, the client
    returns the empty list: the records of the well-formed elements of the
    same answer are lost with it. *)
Theorem analyzeDocumentContent_malformed_element (apiKey : option string)
    (generateContent : nat -> JsError + Response) (rawText : string)
    (items : list (gmap string JsValue)) :
  missing apiKey = false ->
  generateContent 0 = inr {| text := Some rawText |} ->
  rawText <> "" ->
  JSON_parse (cleaned rawText) = inr (PArray items) ->
  (exists item, item ∈ items /\ notAString (prop item "correctAnswer")) ->
  analyzeDocumentContent JSON_parse uuid apiKey generateContent
  = (inr [], [Request 0]).
Proof.
  intros Hkey Hfirst Htext Hparse Hbad.
  unfold analyzeDocumentContent, generateWithRetry. rewrite Hkey.
  cbn [defaultRetries retry_loop]. rewrite Hfirst.
  cbn [tryBlock]. unfold readResponse. cbn [text].
  replace (String.eqb rawText "") with false
    by (symmetry; by apply String.eqb_neq).
  fold (cleaned rawText). rewrite Hparse.
  by destruct (postProcessAll_malformed 0 items Hbad) as [e ->].
Qed.

End Malformed.

Lemma analyzeDocumentContent_malformed_element_witness :
  analyzeDocumentContent
    (fun _ => inr (PArray [element (JString "a"); element (JNumber 2)]))
    (fun _ => "id") (Some "key")
    (fun _ => inr {| text := Some "[...]" |})
  = (inr [], [Request 0]).
Proof.
  apply (analyzeDocumentContent_malformed_element
           (fun _ => inr (PArray [element (JString "a"); element (JNumber 2)]))
           (fun _ => "id") (Some "key")
           (fun _ => inr {| text := Some "[...]" |}) "[...]"
           [element (JString "a"); element (JNumber 2)]);
    try reflexivity; [discriminate |].
  exists (element (JNumber 2)). split; [set_solver |].
  split; [reflexivity | discriminate].
Defined.



End ClientSpec.

(** ** The orchestrators: failures, full runs, cancellation *)

Module SequentialRunSpec.
Import Js GeminiService AppTypes AppSequential.
Import PartialFailureSpec.

Lemma extractLoop_critical (label : string) (n : nat)
    (analyze : nat -> JsError + list (gmap string JsValue)) (e : JsError) :
  forall j remaining i st,
    j < remaining ->
    (forall x e', x < j -> analyze (i + x) = inl e' ->
                  isCritical e' = inr false) ->
    analyze (i + j) = inl e ->
    isCritical e = inr true ->
    fst (extractLoop label n analyze remaining i st) = inl e /\
    results (snd (extractLoop label n analyze remaining i st))
    = results st
      ++ List.concat ((fun x => contribution (analyze x)) <$> seq i j) /\
    current (progress (snd (extractLoop label n analyze remaining i st)))
    = i + j + 1.
Proof.
  induction j as [|j IH]; intros remaining i st Hrem Hbefore Hfail Hcrit;
    (destruct remaining as [|remaining]; [lia |]); cbn [extractLoop].
  - rewrite Nat.add_0_r in Hfail. rewrite Hfail, Hcrit. simpl.
    split; [done |]. split; [by rewrite app_nil_r | lia].
  - assert (forall x e', x < j -> analyze (S i + x) = inl e' ->
                         isCritical e' = inr false) as Hbefore'.
    { intros x e' Hx Hx'. apply (Hbefore (S x)); [lia |].
      by replace (i + S x) with (S i + x) by lia. }
    assert (analyze (S i + j) = inl e) as Hfail'
      by (by replace (S i + j) with (i + S j) by lia).
    cbn [seq fmap list_fmap List.concat].
    destruct (analyze i) as [e0|pageData] eqn:Hi.
    + rewrite (Hbefore 0 e0) by (lia || by rewrite Nat.add_0_r).
      match goal with
      | |- context [extractLoop _ _ _ _ _ ?s] =>
          destruct (IH remaining (S i) s) as (Hout & Hres & Hcur);
            [lia | done | done | done |]
      end.
      split; [done |]. split; [by rewrite Hres | lia].
    + match goal with
      | |- context [extractLoop _ _ _ _ _ ?s] =>
          destruct (IH remaining (S i) s) as (Hout & Hres & Hcur);
            [lia | done | done | done |]
      end.
      split; [done |]. split; [| lia].
      rewrite Hres. simpl.
      destruct (0 <? length pageData) eqn:Hlen; simpl.
      * by rewrite app_assoc.
      * apply Nat.ltb_ge in Hlen.
        destruct pageData; [done | simpl in Hlen; lia].
Qed.

(** X9.  A critical failure stops the sequential run where it happens.
    When unit [j] is the first whose extraction fails with an error holding
    ['API Key'] or ['Model not found'], the loop rethrows that error; the
    store keeps what it held and the records of the units before [j], no
    later unit is analysed, and the progress counter stands at [j + 1]. *)
Theorem extractUnits_critical_stop (label : string) (units : list string)
    (analyze : nat -> JsError + list (gmap string JsValue))
    (st : AppState) (j : nat) (e : JsError) :
  j < length units ->
  (forall x e', x < j -> analyze x = inl e' -> isCritical e' = inr false) ->
  analyze j = inl e ->
  isCritical e = inr true ->
  fst (extractUnits label units analyze st) = inl e /\
  results (snd (extractUnits label units analyze st))
  = results st
    ++ List.concat ((fun x => contribution (analyze x)) <$> seq 0 j) /\
  current (progress (snd (extractUnits label units analyze st))) = j + 1.
Proof.
  intros Hj Hbefore Hfail Hcrit. unfold extractUnits.
  by apply (extractLoop_critical label (length units) analyze e j).
Qed.

(** Three units; for the second the key is refused. *)
Definition keyRefused (x : nat) : JsError + list (gmap string JsValue) :=
  match x with
  | 1 => inl (Error "API Key not valid. Please pass a valid API key.")
  | _ => inr [Samples.record (pretty x) "question"]
  end.

Lemma extractUnits_critical_stop_witness :
  fst (extractUnits "page" ["p1"; "p2"; "p3"] keyRefused emptyStore)
  = inl (Error "API Key not valid. Please pass a valid API key.") /\
  length (results (snd (extractUnits "page" ["p1"; "p2"; "p3"] keyRefused
                          emptyStore))) = 1.
Proof.
  destruct (extractUnits_critical_stop "page" ["p1"; "p2"; "p3"] keyRefused
              emptyStore 1
              (Error "API Key not valid. Please pass a valid API key."))
    as (Hout & Hres & _).
  - simpl. lia.
  - intros x e' Hx He'. assert (x = 0) as -> by lia. discriminate.
  - reflexivity.
  - reflexivity.
  - split; [exact Hout |]. by rewrite Hres.
Defined.

End SequentialRunSpec.

Module GroupRunSpec.
Import Js GeminiService AppTypes App.

Section Run.
Variable winner : JsError -> list JsError -> JsError.
Variable groups : list (list string).
Variable analyze : nat -> JsError + list (gmap string JsValue).

Local Abbreviation step := (step winner groups analyze).
Local Abbreviation run := (run winner groups analyze).

(** The records of group [k] when its extraction fulfils. *)
Definition recordsOf (k : nat) : list (gmap string JsValue) :=
  match analyze k with
  | inr records => records
  | inl _ => []
  end.

Lemma wave_seq (i : nat) :
  wave groups i = seq i (3 `min` (length groups - i)).
Proof.
  unfold wave, slice, CONCURRENT_REQUESTS.
  rewrite length_take, length_drop. f_equal. lia.
Qed.

Lemma seq_wave (a r : nat) :
  seq a (3 `min` r) ++ seq (a + 3) (r - 3) = seq a r.
Proof.
  destruct (decide (r <= 3)).
  - replace (3 `min` r) with r by lia. replace (r - 3) with 0 by lia.
    apply app_nil_r.
  - replace (3 `min` r) with 3 by lia.
    rewrite <- seq_app. f_equal. lia.
Qed.

Lemma Promise_all_fulfilled (indices : list nat) :
  (forall k, k ∈ indices -> exists records, analyze k = inr records) ->
  Promise_all winner (analyze <$> indices) = inr (recordsOf <$> indices).
Proof.
  intros Hok. apply Promise_all_inr.
  rewrite <- list_fmap_compose. apply list_fmap_ext.
  intros j k Hk. simpl. unfold recordsOf.
  destruct (Hok k) as [records ->]; [| done].
  by apply list_elem_of_lookup_2 in Hk.
Qed.

Lemma run_cons (ev : Event) (events : list Event) (c : Config) :
  run (ev :: events) c = run events (step ev c).
Proof. reflexivity. Qed.

Lemma run_ended (events : list Event) (c : Config) :
  Forall CancelSpec.same_run events ->
  CancelSpec.ended (pc c) ->
  pc (run events c) = pc c /\
  results (run events c) = results c /\
  dispatched (run events c) = dispatched c.
Proof.
  intros Hev. revert c.
  induction Hev as [|ev events Hsame _ IH]; intros c Hend; [done |].
  rewrite run_cons.
  assert (pc (step ev c) = pc c /\ results (step ev c) = results c /\
          dispatched (step ev c) = dispatched c) as (Hpc & Hres & Hdis).
  { destruct ev as [| |type]; simpl; [| by case_match | done].
    destruct Hend as [H | [e H]]; by rewrite H. }
  destruct (IH (step ev c)) as (Hpc' & Hres' & Hdis');
    [by rewrite Hpc |].
  by rewrite Hpc', Hres', Hdis', Hpc, Hres, Hdis.
Qed.

Hypothesis all_fulfil :
  forall k, k < length groups -> exists records, analyze k = inr records.

(** From the [await] of the wave at index [i], resumed [m] times, with
    [m] at least the number of waves left. *)
Lemma resume_to_the_end (m : nat) :
  forall i k c,
    pc c = Awaiting i k ->
    abortRef c = false ->
    i < length groups ->
    length groups - i <= 3 * m ->
    pc (run (replicate m Resume) c) = Finished /\
    results (run (replicate m Resume) c)
    = results c ++ List.concat (recordsOf <$> seq i (length groups - i)) /\
    dispatched (run (replicate m Resume) c)
    = dispatched c ++ seq (i + 3) (length groups - (i + 3)).
Proof.
  induction m as [|m IH]; intros i k c Hpc Habort Hi Hm; [lia |].
  cbn [replicate]. rewrite run_cons.
  assert (step Resume c = leaveWave winner groups analyze i k c) as ->
    by (simpl; by rewrite Hpc).
  unfold leaveWave. rewrite Promise_all_fulfilled, Habort.
  2:{ intros j Hj. apply all_fulfil. rewrite wave_seq in Hj.
      apply elem_of_seq in Hj. lia. }
  set (flat := List.concat (recordsOf <$> wave groups i)).
  set (c1 := if 0 <? length flat then append_results flat c else c).
  assert (results c1 = results c ++ flat /\ abortRef c1 = false /\
          dispatched c1 = dispatched c) as (Hres1 & Hab1 & Hdis1).
  { unfold c1. destruct (0 <? length flat) eqn:Hflat; [done |].
    apply Nat.ltb_ge in Hflat. destruct flat; [| simpl in Hflat; lia].
    by rewrite app_nil_r. }
  unfold enterWave, CONCURRENT_REQUESTS.
  destruct (i + 3 <? length groups) eqn:Hnext.
  - apply Nat.ltb_lt in Hnext. cbn [abortRef set_progress]. rewrite Hab1.
    match goal with
    | |- context [run (replicate m Resume) ?c2] =>
        destruct (IH (i + 3) (k + length (wave groups i)) c2)
          as (Hpc' & Hres' & Hdis'); [done | done | done | lia |]
    end.
    split; [done |]. split.
    + rewrite Hres'. cbn [results set_pc dispatch set_progress].
      rewrite Hres1, <- app_assoc. f_equal. unfold flat.
      rewrite <- concat_app, <- fmap_app, wave_seq. do 2 f_equal.
      replace (length groups - (i + 3)) with (length groups - i - 3) by lia.
      apply seq_wave.
    + rewrite Hdis'. cbn [dispatched set_pc dispatch set_progress].
      rewrite Hdis1, <- app_assoc. f_equal. rewrite wave_seq.
      replace (length groups - (i + 3 + 3))
        with (length groups - (i + 3) - 3) by lia.
      apply seq_wave.
  - apply Nat.ltb_ge in Hnext.
    match goal with
    | |- context [run (replicate m Resume) ?c2] =>
        destruct (run_ended (replicate m Resume) c2)
          as (Hpc' & Hres' & Hdis');
          [by apply Forall_replicate | by left |]
    end.
    split; [by rewrite Hpc' |]. split.
    + rewrite Hres'. cbn [results set_pc set_progress]. rewrite Hres1.
      f_equal. unfold flat. rewrite wave_seq. do 3 f_equal. lia.
    + rewrite Hdis'. cbn [dispatched set_pc set_progress]. rewrite Hdis1.
      replace (length groups - (i + 3)) with 0 by lia.
      by rewrite app_nil_r.
Qed.

(** X10.  A run that is not cancelled and in which every request fulfils.
    Called in a configuration with the flag clear and resumed once per wave
    ([length groups + 1] resumptions are enough), [processGroups] returns;
    it has passed every group to the client exactly once, in group order;
    and the store holds, after what it held, the records of the groups in
    group order, whichever request of a wave settled first. *)
Theorem processGroups_full_run (c : Config) :
  pc c = Start ->
  abortRef c = false ->
  pc (run (replicate (S (length groups)) Resume) c) = Finished /\
  dispatched (run (replicate (S (length groups)) Resume) c)
  = dispatched c ++ seq 0 (length groups) /\
  results (run (replicate (S (length groups)) Resume) c)
  = results c ++ List.concat (recordsOf <$> seq 0 (length groups)).
Proof.
  intros Hpc Habort. cbn [replicate]. rewrite run_cons.
  assert (step Resume c = enterWave groups 0 0 c) as ->
    by (simpl; by rewrite Hpc).
  unfold enterWave. destruct (0 <? length groups) eqn:Hn.
  - apply Nat.ltb_lt in Hn. rewrite Habort.
    match goal with
    | |- context [run (replicate _ Resume) ?c2] =>
        destruct (resume_to_the_end (length groups) 0 0 c2)
          as (Hpc' & Hres' & Hdis'); [done | done | done | lia |]
    end.
    split; [done |]. split.
    + rewrite Hdis'. cbn [dispatched set_pc dispatch set_progress].
      rewrite <- app_assoc, wave_seq. f_equal.
      rewrite Nat.sub_0_r. apply (seq_wave 0).
    + rewrite Hres'. cbn [results set_pc dispatch set_progress].
      by rewrite Nat.sub_0_r.
  - apply Nat.ltb_ge in Hn.
    match goal with
    | |- context [run (replicate _ Resume) ?c2] =>
        destruct (run_ended (replicate (length groups) Resume) c2)
          as (Hpc' & Hres' & Hdis');
          [by apply Forall_replicate | by left |]
    end.
    rewrite Hpc', Hres', Hdis'. cbn [pc results dispatched set_pc].
    replace (length groups) with 0 by lia. simpl.
    by rewrite !app_nil_r.
Qed.

End Run.

(** Five groups in two waves. *)
Definition nineUnits : list (list string) :=
  [["p1"; "p2"]; ["p3"; "p4"]; ["p5"; "p6"]; ["p7"; "p8"]; ["p9"]].

Definition twoRecordsEach (k : nat) : JsError + list (gmap string JsValue) :=
  inr [Samples.record (pretty k +:+ "a") "first";
       Samples.record (pretty k +:+ "b") "second"].

Definition called : Config :=
  {| results := [];
     progress := {| total := 5; current := 0; status := extracting;
                    message := Some "AI Extraction in Progress..." |};
     abortRef := false; pc := Start; dispatched := [] |}.

Lemma processGroups_full_run_witness :
  pc (run (fun e _ => e) nineUnits twoRecordsEach
        (replicate 6 Resume) called) = Finished /\
  dispatched (run (fun e _ => e) nineUnits twoRecordsEach
                (replicate 6 Resume) called) = [0; 1; 2; 3; 4] /\
  length (results (run (fun e _ => e) nineUnits twoRecordsEach
                     (replicate 6 Resume) called)) = 10.
Proof.
  destruct (processGroups_full_run (fun e _ => e) nineUnits twoRecordsEach)
    with (c := called) as (Hpc & Hdis & Hres).
  - intros k _. by eexists.
  - reflexivity.
  - reflexivity.
  - split; [exact Hpc |]. split; [exact Hdis |].
    change (replicate 6 Resume) with (replicate (S (length nineUnits)) Resume).
    by rewrite Hres.
Defined.

Section Cancel.
Variable winner : JsError -> list JsError -> JsError.
Variable groups : list (list string).
Variable analyze : nat -> JsError + list (gmap string JsValue).

(** X11.  Cancel while a wave is in flight.  When the cancel button is
    pressed while [processGroups] awaits a wave, the records that wave
    returns are discarded: once the wave has settled, [processGroups] has
    ended, the store is what it was when the button was pressed, and no
    further group has been dispatched; and this stays so, whatever
    resumptions and cancels follow, as long as [handleProcess] is not
    started again. *)
Theorem cancel_discards_wave_in_flight (c : Config) (i k : nat)
    (events : list Event) :
  pc c = Awaiting i k ->
  isProcessing (progress c) = true ->
  Forall CancelSpec.same_run events ->
  CancelSpec.ended
    (pc (run winner groups analyze (Cancel :: Resume :: events) c)) /\
  results (run winner groups analyze (Cancel :: Resume :: events) c)
  = results c /\
  dispatched (run winner groups analyze (Cancel :: Resume :: events) c)
  = dispatched c.
Proof.
  intros Hpc Hshown Hev. rewrite !run_cons.
  assert (step winner groups analyze Cancel c = handleCancel c) as ->
    by (simpl; by rewrite Hshown).
  assert (CancelSpec.ended
            (pc (step winner groups analyze Resume (handleCancel c))) /\
          results (step winner groups analyze Resume (handleCancel c))
          = results c /\
          dispatched (step winner groups analyze Resume (handleCancel c))
          = dispatched c) as (Hend & Hres & Hdis).
  { split.
    - apply CancelSpec.resume_aborted; [done |]. right. by exists i, k.
    - by destruct (CancelSpec.step_aborted winner groups analyze Resume
                     (handleCancel c) I eq_refl) as (_ & -> & ->). }
  destruct (run_ended winner groups analyze events _ Hev Hend)
    as (-> & -> & ->).
  done.
Qed.

End Cancel.

Lemma cancel_discards_wave_in_flight_witness :
  results (run (fun e _ => e) nineUnits twoRecordsEach
             [Resume; Cancel; Resume; Resume; Cancel; Resume] called) = [] /\
  dispatched (run (fun e _ => e) nineUnits twoRecordsEach
                [Resume; Cancel; Resume; Resume; Cancel; Resume] called)
  = [0; 1; 2].
Proof.
  destruct (cancel_discards_wave_in_flight (fun e _ => e) nineUnits
              twoRecordsEach
              (run (fun e _ => e) nineUnits twoRecordsEach [Resume] called)
              0 0 [Resume; Cancel; Resume])
    as (_ & Hres & Hdis).
  - reflexivity.
  - reflexivity.
  - by repeat constructor.
  - split; [exact Hres | exact Hdis].
Defined.

End GroupRunSpec.

(** ** The result store: deleting and editing *)

Module StoreSpec.
Import Js GeminiService AppTypes.

Lemma strict_eq_string_spec (v : JsValue) (id : string) :
  strict_eq_string v id = true <-> v = JString id.
Proof.
  unfold strict_eq_string.
  destruct v; try (split; [done | congruence]).
  rewrite String.eqb_eq. split; [by intros -> | congruence].
Qed.

(** X12.  [handleDeleteResult] keeps exactly the records whose identifier
    is not the target, in the order they had: a record is in the new list
    when it was in the old one with another identifier, the new list is a
    sublist of the old one, and when no record has the identifier the list
    is left as it is. *)
Theorem handleDeleteResult_frame (id : string)
    (prev : list (gmap string JsValue)) :
  (forall item,
     item ∈ handleDeleteResult id prev <->
     item ∈ prev /\ prop item "id" <> JString id) /\
  handleDeleteResult id prev `sublist_of` prev /\
  ((forall item, item ∈ prev -> prop item "id" <> JString id) ->
   handleDeleteResult id prev = prev).
Proof.
  unfold handleDeleteResult. split; [| split].
  - intros item. rewrite !list_elem_of_In, List.filter_In.
    rewrite negb_true_iff, <- not_true_iff_false, strict_eq_string_spec.
    done.
  - induction prev as [|item prev IH]; simpl; [done |].
    destruct (negb (strict_eq_string (prop item "id") id));
      [by apply sublist_skip | by apply sublist_cons].
  - intros Hnone. induction prev as [|item prev IH]; simpl; [done |].
    destruct (strict_eq_string (prop item "id") id) eqn:E; simpl.
    + apply strict_eq_string_spec in E.
      by destruct (Hnone item (list_elem_of_here _ _)).
    + f_equal. apply IH. intros item' Hin. apply Hnone.
      by apply list_elem_of_further.
Qed.

Lemma handleDeleteResult_frame_witness :
  handleDeleteResult "q9"
    [Samples.record "q1" "one"; Samples.record "q2" "two"]
  = [Samples.record "q1" "one"; Samples.record "q2" "two"].
Proof.
  apply (proj2 (proj2 (handleDeleteResult_frame "q9"
           [Samples.record "q1" "one"; Samples.record "q2" "two"]))).
  intros item Hin.
  repeat (apply elem_of_cons in Hin as [-> | Hin]; [discriminate |]).
  by apply elem_of_nil in Hin.
Defined.

Lemma prop_insert_ne (item : gmap string JsValue) (field key : string)
    (v : JsValue) :
  field <> key -> prop (<[field := v]> item) key = prop item key.
Proof. intros H. unfold prop. by rewrite lookup_insert_ne. Qed.

(** X13.  Editing and deleting the same record.  For a field other than
    [id]: editing a record and then deleting it gives what deleting it
    gives, and editing after the deletion changes nothing. *)
Theorem edit_then_delete (id field value : string)
    (prev : list (gmap string JsValue)) :
  field <> "id" ->
  handleDeleteResult id (handleUpdateResult id field value prev)
  = handleDeleteResult id prev /\
  handleUpdateResult id field value (handleDeleteResult id prev)
  = handleDeleteResult id prev.
Proof.
  intros Hfield. unfold handleDeleteResult, handleUpdateResult. split.
  - induction prev as [|item prev IH]; [done |].
    rewrite fmap_cons. cbn [List.filter].
    destruct (strict_eq_string (prop item "id") id) eqn:E.
    + rewrite prop_insert_ne by done. rewrite E. simpl. apply IH.
    + rewrite E. simpl. f_equal. apply IH.
  - induction prev as [|item prev IH]; [done |].
    cbn [List.filter].
    destruct (strict_eq_string (prop item "id") id) eqn:E; cbn [negb];
      [done |].
    rewrite fmap_cons, E. f_equal. apply IH.
Qed.

Lemma edit_then_delete_witness :
  handleDeleteResult "q2"
    (handleUpdateResult "q2" "question" "new text"
       [Samples.record "q1" "one"; Samples.record "q2" "two"])
  = handleDeleteResult "q2"
      [Samples.record "q1" "one"; Samples.record "q2" "two"].
Proof.
  apply (proj1 (edit_then_delete "q2" "question" "new text"
                  [Samples.record "q1" "one"; Samples.record "q2" "two"]
                  ltac:(discriminate))).
Defined.

(** X14.  Edits compose as assignments do.  For fields other than [id]:
    of two edits of the same field of the same record the later one wins,
    and edits of two different fields can be made in either order, whether
    they concern the same record or not. *)
Theorem edits_compose (id1 id2 field1 field2 value1 value2 : string)
    (prev : list (gmap string JsValue)) :
  field1 <> "id" ->
  field2 <> "id" ->
  handleUpdateResult id1 field1 value2
    (handleUpdateResult id1 field1 value1 prev)
  = handleUpdateResult id1 field1 value2 prev /\
  (field1 <> field2 ->
   handleUpdateResult id1 field1 value1
     (handleUpdateResult id2 field2 value2 prev)
   = handleUpdateResult id2 field2 value2
       (handleUpdateResult id1 field1 value1 prev)).
Proof.
  intros H1 H2. unfold handleUpdateResult. split.
  - rewrite <- list_fmap_compose. apply list_fmap_ext. intros _ item _.
    simpl. destruct (strict_eq_string (prop item "id") id1) eqn:E.
    + rewrite prop_insert_ne by done. rewrite E. apply insert_insert_eq.
    + by rewrite E.
  - intros Hne. rewrite <- !list_fmap_compose. apply list_fmap_ext.
    intros _ item _. simpl.
    destruct (strict_eq_string (prop item "id") id1) eqn:E1;
      destruct (strict_eq_string (prop item "id") id2) eqn:E2;
      rewrite ?prop_insert_ne, ?E1, ?E2 by done; try done.
    by apply insert_insert_ne.
Qed.

Lemma edits_compose_witness :
  handleUpdateResult "q1" "choiceA" "second"
    (handleUpdateResult "q1" "choiceA" "first" [Samples.record "q1" "one"])
  = handleUpdateResult "q1" "choiceA" "second" [Samples.record "q1" "one"].
Proof.
  apply (proj1 (edits_compose "q1" "q1" "choiceA" "choiceA" "first" "second"
                  [Samples.record "q1" "one"]
                  ltac:(discriminate) ltac:(discriminate))).
Defined.

End StoreSpec.

(** ** [documentProcessor.ts], first version: one page after the other *)

Module SequentialRasterizer.
Import Js Rasterizer.

(** The [for] loop of the first [processPdfToImages], [i] running from 1 to
    [numPages]; [remaining] is the number of pages still to visit.  The
    fields of [PageEnv] are here what the library and the canvas do at scale
    3.0 and quality 0.95.  A page without a drawing surface is skipped; the
    payload of every other page is pushed as it comes, [undefined] when the
    data URL has no comma. *)
Fixpoint renderPages (pdf : PdfDocument) (remaining i : nat)
    (images : list (option string)) : JsError + list (option string) :=
  match remaining with
  | 0 => inr images
  | S remaining' =>
      let pg := page pdf i in
      match getPage pg with
      | inl e => inl e
      | inr _ =>
          if negb (getContext pg) then renderPages pdf remaining' (S i) images
          else
            match render pg with
            | inl e => inl e
            | inr _ =>
                renderPages pdf remaining' (S i)
                  (images ++ [base64_of (toDataURL pg)])
            end
      end
  end.

Definition processPdfToImages (opened : JsError + PdfDocument) :
    JsError + list (option string) :=
  match opened with
  | inl e => inl e
  | inr pdf => renderPages pdf (numPages pdf) 1 []
  end.

(** The pages that got their drawing surface, and their payloads. *)
Definition surfaced (pdf : PdfDocument) (pages : list nat) : list nat :=
  List.filter (fun pageNum => getContext (page pdf pageNum)) pages.

Definition payload (pdf : PdfDocument) (pageNum : nat) : option string :=
  base64_of (toDataURL (page pdf pageNum)).

(** No page fetch and no drawing fails. *)
Definition renders (pdf : PdfDocument) (pageNum : nat) : Prop :=
  getPage (page pdf pageNum) = inr tt /\
  (getContext (page pdf pageNum) = true ->
   render (page pdf pageNum) = inr tt).

Lemma renderPages_spec (pdf : PdfDocument) :
  forall remaining i images,
    (forall result,
       renderPages pdf remaining i images = inr result ->
       result = images ++ (payload pdf <$> surfaced pdf (seq i remaining))) /\
    ((forall pageNum, i <= pageNum < i + remaining -> renders pdf pageNum) ->
     exists result, renderPages pdf remaining i images = inr result).
Proof.
  induction remaining as [|remaining IH]; intros i images.
  - simpl. split; [| by eexists]. intros result [= <-]. by rewrite app_nil_r.
  - cbn [renderPages seq surfaced List.filter]. fold (surfaced pdf).
    split.
    + intros result H.
      destruct (getPage (page pdf i)); [done |].
      destruct (getContext (page pdf i)); cbn [negb] in *.
      * destruct (render (page pdf i)); [done |].
        apply (proj1 (IH (S i) _)) in H. rewrite H, fmap_cons.
        by rewrite <- app_assoc.
      * by apply (proj1 (IH (S i) _)) in H.
    + intros Hall. destruct (Hall i) as [Hpage Hdraw]; [lia |].
      rewrite Hpage.
      destruct (getContext (page pdf i)); cbn [negb].
      * rewrite Hdraw by done. apply IH. intros p Hp. apply Hall. lia.
      * apply IH. intros p Hp. apply Hall. lia.
Qed.

End SequentialRasterizer.

Module SequentialRasterizerSpec.
Import Js Rasterizer SequentialRasterizer.

(** X15.  The first, sequential [processPdfToImages] keeps one entry for
    every page whose drawing surface was acquired, and none for the others:
    when it returns, the entries are the payloads of exactly those pages, in
    page order, nothing being filtered, so there are as many as surfaces
    acquired; and it does return whenever no page fetch and no drawing
    rejects. *)
Theorem processPdfToImages_one_entry_per_surface (pdf : PdfDocument) :
  (forall images,
     processPdfToImages (inr pdf) = inr images ->
     images = payload pdf <$> surfaced pdf (pageIndices (numPages pdf)) /\
     length images = length (surfaced pdf (pageIndices (numPages pdf)))) /\
  ((forall pageNum, 1 <= pageNum <= numPages pdf -> renders pdf pageNum) ->
   exists images, processPdfToImages (inr pdf) = inr images).
Proof.
  unfold processPdfToImages, pageIndices.
  destruct (renderPages_spec pdf (numPages pdf) 1 []) as [Hret Hruns].
  split.
  - intros images H. apply Hret in H. simpl in H. subst images.
    split; [done | apply length_fmap].
  - intros Hall. apply Hruns. intros p Hp. apply Hall. lia.
Qed.

Lemma processPdfToImages_one_entry_per_surface_witness :
  exists images,
    processPdfToImages (inr RasterizerSpec.threePages) = inr images /\
    length images = 2.
Proof.
  destruct (processPdfToImages_one_entry_per_surface
              RasterizerSpec.threePages) as [Hret Hruns].
  destruct Hruns as [images Himages].
  - intros p Hp. simpl in Hp.
    assert (p = 1 \/ p = 2 \/ p = 3) as [-> | [-> | ->]] by lia;
      by split.
  - exists images. split; [exact Himages |].
    exact (proj2 (Hret images Himages)).
Defined.

End SequentialRasterizerSpec.

(** ** Loops whose step is the size they are given *)

Module StepSizeSpec.
Import Js Rasterizer AppGroups.

Lemma chunkArray_loop_zero {A : Type} (array : list A) :
  forall (fuel i : nat) (result : list (list A)),
    i < length array ->
    chunkArray_loop fuel array 0 i result = None.
Proof.
  induction fuel as [|fuel IH]; intros i result Hi; [done |].
  simpl. replace (i <? length array) with true
    by (symmetry; by apply Nat.ltb_lt).
  rewrite Nat.add_0_r. by apply IH.
Qed.

(** X16.  Size 0 is not guarded against.  On a list that is not empty,
    [batchProcess] with batch size 0 and [chunkArray] with group size 0
    never leave their loop: the index stays at 0 and no number of tests of
    the loop condition is enough for a result.  On the empty list both
    return at once. *)
Theorem zero_size_never_returns {T R E : Type} (winner : E -> list E -> E)
    (items : list T) (fn : T -> E + R) :
  items <> [] ->
  (forall fuel, batchProcess_loop winner fuel items 0 fn 0 [] = None) /\
  (forall fuel, chunkArray_loop fuel items 0 0 [] = None) /\
  batchProcess winner [] 0 fn = Some (inr []) /\
  chunkArray ([] : list T) 0 = Some [].
Proof.
  intros Hne.
  assert (0 < length items) by (destruct items; [done | simpl; lia]).
  split; [| split; [| done]].
  - intros fuel. by apply batchProcess_loop_zero.
  - intros fuel. by apply chunkArray_loop_zero.
Qed.

Lemma zero_size_never_returns_witness :
  batchProcess_loop (fun (e : unit) _ => e) 1000 [1; 2; 3] 0
    (fun x => inr (x + 1)) 0 [] = None.
Proof.
  apply (proj1 (zero_size_never_returns (fun (e : unit) _ => e) [1; 2; 3]
                  (fun x => inr (x + 1)) ltac:(discriminate))).
Defined.

End StepSizeSpec.

(** ** [documentProcessor.ts]: from a word-processor file to payloads *)

Module Docx.
Import Js JsString Chunker.

Section ProcessDocx.
(** [btoa(unescape(encodeURIComponent(chunk)))]: the runtime's Base64 of the
    UTF-8 bytes of the chunk; it returns or throws. *)
Variable encode : string -> JsError + string.

(** [chunks.map(chunk => ...)]: the first chunk whose encoding throws ends
    the map. *)
Fixpoint encodeAll (chunks : list string) : JsError + list string :=
  match chunks with
  | [] => inr []
  | chunk :: chunks' =>
      match encode chunk with
      | inl e => inl e
      | inr encoded =>
          match encodeAll chunks' with
          | inl e => inl e
          | inr rest => inr (encoded :: rest)
          end
      end
  end.

(** [processDocxToHtml(file)]; [converted] is what reading the file and
    [await mammoth.convertToHtml({ arrayBuffer })] settle to, [result.value]
    when they fulfil. *)
Definition processDocxToHtml (converted : JsError + string) :
    JsError + list string :=
  match converted with
  | inl e => inl e
  | inr rawHtml => encodeAll (chunkHtmlContent rawHtml defaultMaxChunkSize)
  end.

Lemma encodeAll_inr (chunks payloads : list string) :
  encodeAll chunks = inr payloads ->
  Forall2 (fun chunk encoded => encode chunk = inr encoded) chunks payloads.
Proof.
  revert payloads. induction chunks as [|chunk chunks IH]; intros payloads.
  - intros [= <-]. constructor.
  - cbn [encodeAll]. destruct (encode chunk) eqn:Hc; [done |].
    destruct (encodeAll chunks); [done |]. intros [= <-].
    constructor; [done | by apply IH].
Qed.

End ProcessDocx.

(** The chunks spell the document (for every maximum size). *)
Lemma chunks_spell_document (html : string) (m : nat) :
  concat (chunkHtmlContent html m) = html.
Proof.
  rewrite chunkHtmlContent_unfold.
  destruct (length html <=? m); [apply concat_singleton |].
  destruct (pack m (paragraphs html) [] "") as [chunks cur] eqn:E.
  apply pack_concat in E. simpl in E. rewrite concat_paragraphs in E.
  destruct (0 <? length cur) eqn:Hcur.
  - by autorewrite with jsstring in *.
  - apply Nat.ltb_ge in Hcur.
    assert (cur = "") as -> by (apply length_zero; lia).
    by autorewrite with jsstring in *.
Qed.

End Docx.

Module DocxSpec.
Import Js JsString Chunker Docx.

(** X17.  What [processDocxToHtml] sends on is the whole document.  When it
    returns, there is one payload per chunk of the converted HTML, at least
    one; a document of at most 30000 code units travels as a single
    payload; and for any decoder that undoes the encoding, the payloads
    decoded and put end to end are the converted HTML. *)
Theorem processDocxToHtml_payloads (encode : string -> JsError + string)
    (decode : string -> string) (rawHtml : string) (payloads : list string) :
  (forall chunk encoded, encode chunk = inr encoded -> decode encoded = chunk) ->
  processDocxToHtml encode (inr rawHtml) = inr payloads ->
  payloads <> [] /\
  Forall2 (fun chunk encoded => encode chunk = inr encoded)
    (chunkHtmlContent rawHtml defaultMaxChunkSize) payloads /\
  (length rawHtml <= defaultMaxChunkSize ->
   exists encoded, payloads = [encoded] /\ encode rawHtml = inr encoded) /\
  concat (decode <$> payloads) = rawHtml.
Proof.
  intros Hdecode Hrun. simpl in Hrun. apply encodeAll_inr in Hrun.
  split; [| split; [done | split]].
  - intros ->. apply Forall2_nil_inv_r in Hrun.
    pose proof (chunks_spell_document rawHtml defaultMaxChunkSize) as Hcat.
    rewrite Hrun in Hcat. simpl in Hcat. subst rawHtml.
    by rewrite chunkHtmlContent_unfold in Hrun.
  - intros Hsmall. rewrite chunkHtmlContent_unfold in Hrun.
    apply Nat.leb_le in Hsmall. rewrite Hsmall in Hrun.
    apply Forall2_cons_inv_l in Hrun as (encoded & rest & He & Hrest & ->).
    apply Forall2_nil_inv_l in Hrest as ->. by exists encoded.
  - transitivity (concat (chunkHtmlContent rawHtml defaultMaxChunkSize));
      [| apply chunks_spell_document].
    f_equal. induction Hrun as [|chunk encoded chunks rest He _ IH];
      [done |].
    rewrite fmap_cons, (Hdecode _ _ He). by f_equal.
Qed.

Lemma processDocxToHtml_payloads_witness :
  concat (id <$> ["<p>Question 1</p><p>A) yes</p>"])
  = "<p>Question 1</p><p>A) yes</p>".
Proof.
  apply (processDocxToHtml_payloads (fun chunk => inr chunk) id
           "<p>Question 1</p><p>A) yes</p>"
           ["<p>Question 1</p><p>A) yes</p>"]).
  - by intros chunk encoded [= <-].
  - reflexivity.
Defined.

End DocxSpec.

(** ** [App.tsx]: one call of [handleProcess], from the click to its return *)

Module HandleProcess.
Import Js GeminiService AppTypes App AppGroups.

(** Where the call stands: at one of its [await]s, or returned.  [Hung]
    stands for a call of [chunkArray] that does not return. *)
Inductive HPc : Type :=
| Pausing        (* at [await new Promise(r => setTimeout(r, 100))] *)
| Rasterizing    (* at [await processPdfToImages(file)] *)
| Converting     (* at [await processDocxToHtml(file)] *)
| Extracting (contentGroups : list (list string)) (mimeType : string)
                 (* at [await processGroups(contentGroups, mimeType)] *)
| Returned
| Hung.

(** The component, with [pc] the place of the call of [processGroups] made
    by this call of [handleProcess]. *)
Record State : Type := { config : Config; hpc : HPc }.

Definition with_results
    (f : list (gmap string JsValue) -> list (gmap string JsValue))
    (c : Config) : Config :=
  {| results := f (results c); progress := progress c;
     abortRef := abortRef c; pc := pc c; dispatched := dispatched c |}.

(** [handleClear]; the file it forgets is only read when [handleProcess]
    is called. *)
Definition handleClear (c : Config) : Config :=
  {| results := [];
     progress := {| total := 0; current := 0; status := idle;
                    message := None |};
     abortRef := abortRef c; pc := pc c; dispatched := dispatched c |}.

(** What can happen next: the pending [await] settles and the call runs on
    to its next [await] or to its return; or the user presses a button on
    show, or edits the table. *)
Inductive Event : Type :=
| Resume
| Cancel
| Clear
| Update (id field value : string)
| Delete (id : string).

Section Call.
Variable winner : JsError -> list JsError -> JsError.
(** [error instanceof Error] *)
Variable instanceofError : JsError -> bool.
(** What [processPdfToImages(file)] and [processDocxToHtml(file)] settle
    to. *)
Variable rasterized : JsError + list string.
Variable converted : JsError + list string.
(** What [analyzeDocumentContent(contentGroups[k], mimeType, language)]
    settles to. *)
Variable analyze : string -> nat -> JsError + list (gmap string JsValue).

(** The [catch] block *)
Definition failed (e : JsError) (c : Config) : Config :=
  set_progress
    (fun _ =>
       {| total := 0; current := 0; status := error;
          message := if instanceofError e then Js.message e
                     else Some "Processing failed." |})
    c.

(** After [await processGroups(...)] *)
Definition afterGroups (c : Config) : Config :=
  if abortRef c then
    set_progress
      (fun _ => {| total := 0; current := 0; status := idle;
                   message := Some "Cancelled" |})
      c
  else
    set_progress
      (fun _ => {| total := 0; current := 0; status := complete;
                   message := Some "Extraction Complete!" |})
      c.

(** [processGroups] has run to an [await] or to its end; a promise that is
    settled already lets [handleProcess] run on before anything else
    happens. *)
Definition settle (contentGroups : list (list string)) (mimeType : string)
    (c : Config) : State :=
  match pc c with
  | Start | Awaiting _ _ =>
      {| config := c; hpc := Extracting contentGroups mimeType |}
  | Finished => {| config := afterGroups c; hpc := Returned |}
  | Threw e => {| config := failed e c; hpc := Returned |}
  end.

(** From the test of the flag that follows the two branches on. *)
Definition extract (contentGroups : list (list string)) (mimeType : string)
    (c : Config) : State :=
  if abortRef c then
    {| config :=
         set_progress
           (fun _ => {| total := 0; current := 0; status := idle;
                        message := None |})
           c;
       hpc := Returned |}
  else
    settle contentGroups mimeType
      (enterWave contentGroups 0 0
         (set_progress
            (fun _ =>
               {| total := length contentGroups; current := 0;
                  status := extracting;
                  message := Some "AI Extraction in Progress..." |})
            c)).

(** [handleProcess], up to its first [await]; [file] is [file.type] when a
    file is selected. *)
Definition handleProcess (file : option string) (c : Config) : State :=
  match file with
  | None => {| config := c; hpc := Returned |}
  | Some fileType =>
      let c0 :=
        {| results := [];
           progress := {| total := 0; current := 0; status := analyzing;
                          message := None |};
           abortRef := false; pc := Start; dispatched := dispatched c |} in
      match detectFileType fileType with
      | PDF =>
          {| config :=
               set_progress
                 (fun _ =>
                    {| total := 100; current := 0; status := analyzing;
                       message :=
                         Some "Optimizing PDF (Parallel Processing)..." |})
                 c0;
             hpc := Pausing |}
      | DOCX =>
          {| config :=
               set_progress
                 (fun _ =>
                    {| total := 100; current := 10; status := analyzing;
                       message := Some "Reading Word Document..." |})
                 c0;
             hpc := Converting |}
      | UNKNOWN => extract [] "" c0
      end
  end.

(** The pending [await] settles. *)
Definition resume (s : State) : State :=
  let c := config s in
  match hpc s with
  | Pausing => {| config := c; hpc := Rasterizing |}
  | Rasterizing =>
      match rasterized with
      | inl e => {| config := failed e c; hpc := Returned |}
      | inr images =>
          if abortRef c then {| config := c; hpc := Returned |}
          else
            match chunkArray images PAGES_PER_CONTEXT with
            | None => {| config := c; hpc := Hung |}
            | Some contentGroups => extract contentGroups "image/jpeg" c
            end
      end
  | Converting =>
      match converted with
      | inl e => {| config := failed e c; hpc := Returned |}
      | inr htmlChunks =>
          match chunkArray htmlChunks PAGES_PER_CONTEXT with
          | None => {| config := c; hpc := Hung |}
          | Some contentGroups => extract contentGroups "text/html" c
          end
      end
  | Extracting contentGroups mimeType =>
      settle contentGroups mimeType
        (App.step winner contentGroups (analyze mimeType) App.Resume c)
  | Returned | Hung => s
  end.

(** The cancel button is on show while [isProcessing]; the start button
    (not pressed again here) and the button that clears are on show
    otherwise; the table can be edited at any time. *)
Definition step (ev : Event) (s : State) : State :=
  let c := config s in
  match ev with
  | Resume => resume s
  | Cancel =>
      if isProcessing (progress c)
      then {| config := handleCancel c; hpc := hpc s |} else s
  | Clear =>
      if isProcessing (progress c)
      then s else {| config := handleClear c; hpc := hpc s |}
  | Update id field value =>
      {| config := with_results (handleUpdateResult id field value) c;
         hpc := hpc s |}
  | Delete id =>
      {| config := with_results (handleDeleteResult id) c; hpc := hpc s |}
  end.

Definition run (events : list Event) (s : State) : State :=
  foldl (fun s ev => step ev s) s events.

(** How many times the call is resumed. *)
Fixpoint resumptions (events : list Event) : nat :=
  match events with
  | [] => 0
  | Resume :: events' => S (resumptions events')
  | _ :: events' => resumptions events'
  end.

(** The number of payloads the file gives. *)
Definition payloads (file : option string) : nat :=
  match file with
  | None => 0
  | Some fileType =>
      match detectFileType fileType with
      | PDF => match rasterized with inr images => length images | _ => 0 end
      | DOCX =>
          match converted with inr htmlChunks => length htmlChunks | _ => 0 end
      | UNKNOWN => 0
      end
  end.

End Call.

End HandleProcess.

Module HandleProcessSpec.
Import Js GeminiService AppTypes App AppGroups HandleProcess.

Lemma enterWave_shape (groups : list (list string)) (i k : nat)
    (c : Config) :
  abortRef (enterWave groups i k c) = abortRef c /\
  status (progress (enterWave groups i k c)) = status (progress c) /\
  (pc (enterWave groups i k c) = Finished \/
   pc (enterWave groups i k c) = Awaiting i k /\ i < length groups /\
   abortRef c = false).
Proof.
  unfold enterWave. destruct (i <? length groups) eqn:Hi.
  - apply Nat.ltb_lt in Hi. destruct (abortRef c) eqn:Hab; simpl.
    + auto.
    + repeat split; auto.
  - simpl; auto.
Qed.

Section Call.
Variable winner : JsError -> list JsError -> JsError.
Variable instanceofError : JsError -> bool.
Variable rasterized : JsError + list string.
Variable converted : JsError + list string.
Variable analyze : string -> nat -> JsError + list (gmap string JsValue).

Local Abbreviation resume :=
  (resume winner instanceofError rasterized converted analyze).
Local Abbreviation step :=
  (step winner instanceofError rasterized converted analyze).
Local Abbreviation run :=
  (run winner instanceofError rasterized converted analyze).
Local Abbreviation failed := (failed instanceofError).
Local Abbreviation settle := (settle instanceofError).
Local Abbreviation extract := (extract instanceofError).
Local Abbreviation handleProcess := (handleProcess instanceofError).

Lemma leaveWave_shape (groups : list (list string))
    (answers : nat -> JsError + list (gmap string JsValue)) (i k : nat)
    (c : Config) :
  abortRef (leaveWave winner groups answers i k c) = abortRef c /\
  status (progress (leaveWave winner groups answers i k c))
  = status (progress c) /\
  (pc (leaveWave winner groups answers i k c) = Finished \/
   (exists e, pc (leaveWave winner groups answers i k c) = Threw e) \/
   pc (leaveWave winner groups answers i k c)
   = Awaiting (i + 3) (k + length (wave groups i)) /\
   i + 3 < length groups /\ abortRef c = false).
Proof.
  unfold leaveWave.
  destruct (Promise_all winner (answers <$> wave groups i)) as [e|rs];
    [simpl; repeat split; eauto |].
  destruct (abortRef c) eqn:Hab; [simpl; repeat split; auto |].
  match goal with
  | |- context [enterWave groups ?j ?n ?c2] =>
      destruct (enterWave_shape groups j n c2) as (Hab' & Hst & Hpc)
  end.
  rewrite Hab', Hst. split; [| split].
  - cbn [abortRef set_progress]. by case_match.
  - cbn [progress set_progress with_current status]. by case_match.
  - destruct Hpc as [Hpc | (Hpc & Hi & _)]; [by left |].
    right; right. by rewrite Hpc.
Qed.






Lemma chunkArray_returns (payloads : list string) :
  exists groups,
    chunkArray payloads PAGES_PER_CONTEXT = Some groups /\
    length groups * 4 < length payloads + 4.
Proof.
  destruct (chunkArray_loop_spec payloads 4 ltac:(lia)
              (S (length payloads)) 0 [] ltac:(lia))
    as (groups & Heq & _ & _ & _ & Hlen).
  exists groups. split; [exact Heq | lia].
Qed.






(** [m] resumptions are enough for the call to return. *)
Definition within (m : nat) (s : State) : Prop :=
  match hpc s with
  | Pausing =>
      exists w,
        match rasterized with inr images => length images | inl _ => 0 end
        <= 12 * w /\ 2 + w <= m
  | Rasterizing =>
      exists w,
        match rasterized with inr images => length images | inl _ => 0 end
        <= 12 * w /\ 1 + w <= m
  | Converting =>
      exists w,
        match converted with
        | inr htmlChunks => length htmlChunks
        | inl _ => 0
        end <= 12 * w /\ 1 + w <= m
  | Extracting groups _ =>
      exists i k,
        pc (config s) = Awaiting i k /\ i < length groups /\
        length groups - i <= 3 * m
  | Returned => True
  | Hung => False
  end.

Lemma extract_within (m : nat) (groups : list (list string))
    (mimeType : string) (c : Config) :
  length groups <= 3 * m -> within m (extract groups mimeType c).
Proof.
  intros Hm. unfold HandleProcess.extract.
  destruct (abortRef c); [done |].
  match goal with
  | |- context [enterWave groups 0 0 ?c1] =>
      destruct (enterWave_shape groups 0 0 c1)
        as (_ & _ & [Hpc | (Hpc & Hi & _)])
  end; unfold HandleProcess.settle; rewrite Hpc; [done |].
  unfold within. cbn [hpc config]. exists 0, 0. split; [done |]. lia.
Qed.

Lemma resume_within (m : nat) (s : State) :
  within m s -> within (pred m) (resume s).
Proof.
  destruct s as [c h]. unfold within at 1, HandleProcess.resume.
  cbn [hpc config].
  destruct h as [| | |groups mimeType| |]; [| | | | done | done].
  - intros (w & Hw & Hm). unfold within. cbn [hpc]. exists w. lia.
  - intros (w & Hw & Hm). destruct rasterized as [e|images]; [done |].
    destruct (abortRef c); [done |].
    destruct (chunkArray_returns images) as (groups & -> & Hlen).
    apply extract_within. lia.
  - intros (w & Hw & Hm). destruct converted as [e|htmlChunks]; [done |].
    destruct (chunkArray_returns htmlChunks) as (groups & -> & Hlen).
    apply extract_within. lia.
  - intros (i & k & Hpc & Hi & Hm). cbn [App.step]. rewrite Hpc.
    destruct (leaveWave_shape groups (analyze mimeType) i k c)
      as (_ & _ & [Hpc' | [[e Hpc'] | (Hpc' & Hi' & _)]]);
      unfold HandleProcess.settle; rewrite Hpc'; [done | done |].
    unfold within. cbn [hpc config]. eexists _, _.
    split; [exact Hpc' |]. lia.
Qed.

Lemma step_within (m : nat) (ev : Event) (s : State) :
  within m s ->
  within (match ev with Resume => pred m | _ => m end) (step ev s).
Proof.
  intros Hs. destruct ev as [| | |id field value|id];
    [by apply resume_within | | | exact Hs | exact Hs];
    cbn [HandleProcess.step];
    destruct (isProcessing (progress (config s))); exact Hs.
Qed.

Lemma within_zero (s : State) : within 0 s -> hpc s = Returned.
Proof.
  unfold within. destruct (hpc s); try done.
  - intros (w & _ & ?). lia.
  - intros (w & _ & ?). lia.
  - intros (w & _ & ?). lia.
  - intros (i & k & _ & ? & ?). lia.
Qed.

Lemma run_within (events : list Event) :
  forall m s,
    within m s -> m <= resumptions events -> hpc (run events s) = Returned.
Proof.
  induction events as [|ev events IH]; intros m s Hs Hm.
  - apply within_zero. simpl in Hm. by replace m with 0 in Hs by lia.
  - cbn [HandleProcess.run foldl].
    apply (IH (match ev with Resume => pred m | _ => m end));
      [by apply step_within |].
    destruct ev; simpl in Hm; lia.
Qed.

(** X19.  The call returns.  For a file that gives [n] payloads, with
    [n <= 12 * w], the call has returned once it has been resumed [2 + w]
    times: it has no more than [2 + ceil(n / 12)] waits, whatever the
    requests answer, and whatever else happens in between. *)
Theorem handleProcess_returns (file : option string) (c : Config)
    (events : list Event) (w : nat) :
  payloads rasterized converted file <= 12 * w ->
  2 + w <= resumptions events ->
  hpc (run events (handleProcess file c)) = Returned.
Proof.
  intros Hw Hm. apply (run_within events (2 + w)); [| exact Hm].
  unfold payloads in Hw. destruct file as [fileType|]; [| done].
  cbn [HandleProcess.handleProcess].
  destruct (detectFileType fileType).
  - unfold within. cbn [hpc]. exists w. lia.
  - unfold within. cbn [hpc]. exists w. lia.
  - apply extract_within. simpl. lia.
Qed.








End Call.

(** A store left by an earlier run, with the start button on show. *)
Definition earlier : Config :=
  {| results := [Samples.record "old" "left over"];
     progress := {| total := 0; current := 0; status := complete;
                    message := Some "Extraction Complete!" |};
     abortRef := false; pc := Finished; dispatched := [] |}.

Definition fivePages : JsError + list string :=
  inr ["p1"; "p2"; "p3"; "p4"; "p5"].

Definition noDocument : JsError + list string :=
  inl (Error "not a word-processor file").

Definition oneRecord (mimeType : string) (k : nat) :
    JsError + list (gmap string JsValue) :=
  inr [Samples.record (pretty k) mimeType].


Lemma handleProcess_returns_witness :
  hpc (run (fun e _ => e) (fun _ => true) fivePages noDocument oneRecord
         [Resume; Update "0" "question" "edited"; Resume; Cancel; Resume]
         (handleProcess (fun _ => true) (Some "application/pdf") earlier))
  = Returned.
Proof.
  apply (handleProcess_returns (fun e _ => e) (fun _ => true) fivePages
           noDocument oneRecord (Some "application/pdf") earlier _ 1).
  - vm_compute. lia.
  - simpl. lia.
Defined.


End HandleProcessSpec.

(** ** The extraction client: what reaches [JSON.parse] *)

Module FenceSpec.
Import JsString Js GeminiService.

Lemma split_from_cons (c0 : ascii) (sep' acc : string) (c : ascii)
    (s' : string) :
  split_from c0 sep' acc (String c s')
  = match strip_prefix (String c0 sep') (String c s') with
    | Some rest => acc :: split_from c0 sep' "" rest
    | None => split_from c0 sep' (acc +:+ String c "") s'
    end.
Proof.
  simp split_from.
  destruct (inspect (strip_prefix (String c0 sep') (String c s')))
    as [[rest|] e]; simp split_from; by rewrite e.
Qed.

Lemma concat_split_from (c0 : ascii) (sep' : string) (s : string) :
  forall acc,
    concat (split_from c0 sep' acc s)
    = acc +:+ concat (split_from c0 sep' "" s).
Proof.
  remember (String.length s) as n eqn:Hn. revert s Hn.
  induction n as [n IH] using lt_wf_ind. intros [|c s'] Hn acc.
  - simp split_from. cbn [concat]. by autorewrite with jsstring.
  - rewrite !split_from_cons.
    destruct (strip_prefix (String c0 sep') (String c s')) as [rest|] eqn:E.
    + cbn [concat]. by autorewrite with jsstring.
    + simpl in Hn.
      rewrite (IH (String.length s') ltac:(lia) s' eq_refl
                 (acc +:+ String c "")).
      rewrite (IH (String.length s') ltac:(lia) s' eq_refl
                 ("" +:+ String c "")).
      by rewrite append_nil_l, append_assoc.
Qed.

(** [replace(/pat/g, '')], one code unit at a time. *)
Lemma remove_all_nil (c0 : ascii) (sep' : string) :
  remove_all (String c0 sep') "" = "".
Proof. unfold remove_all, split. by simp split_from. Qed.

Lemma remove_all_cons (c0 : ascii) (sep' : string) (c : ascii)
    (s' : string) :
  remove_all (String c0 sep') (String c s')
  = match strip_prefix (String c0 sep') (String c s') with
    | Some rest => remove_all (String c0 sep') rest
    | None => String c (remove_all (String c0 sep') s')
    end.
Proof.
  unfold remove_all, split. rewrite split_from_cons.
  destruct (strip_prefix (String c0 sep') (String c s')) as [rest|].
  - cbn [concat]. by rewrite append_nil_l.
  - rewrite concat_split_from. by rewrite append_nil_l.
Qed.

(** The number of backticks a string begins with. *)
Fixpoint lead (s : string) : nat :=
  match s with
  | EmptyString => 0
  | String c s' => if Ascii.eqb "`" c then S (lead s') else 0
  end.

Lemma fence_lead (s rest : string) :
  strip_prefix "```" s = Some rest -> lead s = 3 + lead rest.
Proof.
  intros H. apply strip_prefix_Some in H. by subst s.
Qed.

Lemma lead_fence (s : string) :
  strip_prefix "```" s = None -> lead s <= 2.
Proof.
  destruct s as [|a [|b [|c s]]]; cbn [strip_prefix lead];
    [lia | destruct (Ascii.eqb "`" a); lia | |].
  - destruct (Ascii.eqb "`" a); [| lia]. destruct (Ascii.eqb "`" b); lia.
  - destruct (Ascii.eqb "`" a); [| lia].
    destruct (Ascii.eqb "`" b); [| lia].
    destruct (Ascii.eqb "`" c); [done | lia].
Qed.

Lemma lead_remove_all (s : string) :
  lead (remove_all "```" s) <= lead s.
Proof.
  remember (String.length s) as n eqn:Hn. revert s Hn.
  induction n as [n IH] using lt_wf_ind. intros [|c s'] Hn.
  - by rewrite remove_all_nil.
  - rewrite remove_all_cons.
    destruct (strip_prefix "```" (String c s')) as [rest|] eqn:E.
    + rewrite (fence_lead _ _ E).
      pose proof (strip_prefix_Some _ _ _ E) as Hs.
      apply (f_equal length) in Hs. rewrite length_append in Hs.
      unfold length in Hs. simpl in Hs, Hn.
      pose proof (IH (String.length rest) ltac:(lia) rest eq_refl). lia.
    + simpl in Hn. cbn [lead]. destruct (Ascii.eqb "`" c); [| lia].
      pose proof (IH (String.length s') ltac:(lia) s' eq_refl). lia.
Qed.

(** Taking the fences out leaves no fence, also none made of the
    backticks left on both sides of one that was taken out. *)
Lemma remove_all_fence (s : string) :
  includes (remove_all "```" s) "```" = false.
Proof.
  remember (String.length s) as n eqn:Hn. revert s Hn.
  induction n as [n IH] using lt_wf_ind. intros [|c s'] Hn.
  - by rewrite remove_all_nil.
  - rewrite remove_all_cons.
    destruct (strip_prefix "```" (String c s')) as [rest|] eqn:E.
    + pose proof (strip_prefix_Some _ _ _ E) as Hs.
      apply (f_equal length) in Hs. rewrite length_append in Hs.
      unfold length in Hs. simpl in Hs, Hn.
      apply (IH (String.length rest)); [lia | done].
    + simpl in Hn. cbn [includes].
      rewrite (IH (String.length s') ltac:(lia) s' eq_refl).
      destruct (strip_prefix "```" (String c (remove_all "```" s')))
        as [rest|] eqn:E'; [| done].
      apply fence_lead in E'. apply lead_fence in E.
      pose proof (lead_remove_all s') as Hle.
      cbn [lead] in E, E'. destruct (Ascii.eqb "`" c); lia.
Qed.

Lemma strip_prefix_append_r (p a b r : string) :
  strip_prefix p a = Some r -> strip_prefix p (a +:+ b) = Some (r +:+ b).
Proof.
  intros H. apply strip_prefix_Some in H. subst a.
  rewrite append_assoc. apply strip_prefix_append.
Qed.

Lemma includes_append_r (a b sub : string) :
  includes a sub = true -> includes (a +:+ b) sub = true.
Proof.
  induction a as [|c a IH]; cbn [includes].
  - destruct (strip_prefix sub "") as [r|] eqn:E; [| done].
    intros _. rewrite append_nil_l.
    apply strip_prefix_Some in E.
    destruct sub; [| by rewrite append_cons in E].
    by destruct b.
  - destruct (strip_prefix sub (String c a)) as [r|] eqn:E.
    + intros _. rewrite append_cons. cbn [includes].
      rewrite <- append_cons. by rewrite (strip_prefix_append_r _ _ b _ E).
    + intros H. rewrite append_cons. cbn [includes].
      rewrite IH by done. by case_match.
Qed.

Lemma includes_cons (c : ascii) (s sub : string) :
  includes s sub = true -> includes (String c s) sub = true.
Proof. intros H. cbn [includes]. rewrite H. by case_match. Qed.

Lemma trimStart_includes (s sub : string) :
  includes (trimStart s) sub = true -> includes s sub = true.
Proof.
  induction s as [|c s IH]; [done |]. cbn [trimStart].
  destruct (is_whitespace c); [| done].
  intros H. apply includes_cons. by apply IH.
Qed.

Lemma trimEnd_prefix (s : string) : exists w, s = trimEnd s +:+ w.
Proof.
  induction s as [|c s [w IH]]; [by exists "" |]. cbn [trimEnd].
  destruct (trimEnd s) as [|d t] eqn:E.
  - destruct (is_whitespace c).
    + exists (String c s). by rewrite append_nil_l.
    + exists s. by rewrite append_cons, append_nil_l.
  - exists w. rewrite append_cons. by f_equal.
Qed.

Lemma trim_includes (s sub : string) :
  includes (trim s) sub = true -> includes s sub = true.
Proof.
  unfold trim. intros H. apply trimStart_includes.
  destruct (trimEnd_prefix (trimStart s)) as [w Hw]. rewrite Hw.
  by apply includes_append_r.
Qed.

(** [trim] leaves nothing to trim. *)
Lemma trimEnd_idemp (s : string) : trimEnd (trimEnd s) = trimEnd s.
Proof.
  induction s as [|c s IH]; [done |]. cbn [trimEnd].
  destruct (trimEnd s) as [|d t] eqn:E.
  - destruct (is_whitespace c) eqn:Hc; [done |].
    cbn [trimEnd]. by rewrite Hc.
  - cbn [trimEnd] in *. by rewrite IH.
Qed.

Lemma trimStart_fixed (s : string) : trimStart (trimStart s) = trimStart s.
Proof.
  induction s as [|c s IH]; [done |]. cbn [trimStart].
  destruct (is_whitespace c) eqn:Hc; [done |].
  cbn [trimStart]. by rewrite Hc.
Qed.

Lemma trimStart_trimEnd (s : string) :
  trimStart s = s -> trimStart (trimEnd s) = trimEnd s.
Proof.
  destruct s as [|c s]; [done |]. cbn [trimStart trimEnd].
  destruct (is_whitespace c) eqn:Hc.
  - intros H. apply (f_equal String.length) in H. simpl in H.
    assert (String.length (trimStart s) <= String.length s); [| lia].
    clear. induction s as [|d s IH]; [done |]. cbn [trimStart].
    destruct (is_whitespace d); simpl; lia.
  - intros _. destruct (trimEnd s); cbn [trimStart]; by rewrite Hc.
Qed.

Lemma trim_idemp (s : string) : trim (trim s) = trim s.
Proof.
  unfold trim.
  rewrite (trimStart_trimEnd (trimStart s)) by apply trimStart_fixed.
  apply trimEnd_idemp.
Qed.

(** X21.  No code fence reaches [JSON.parse].  The text the client hands
    to the parser holds no run of three backticks (taking the fences out
    leaves none, also none made of backticks on both sides of a fence that
    was taken out) and has no white space at either end: two parsers that
    agree on such texts give the same result for every response. *)
Theorem readResponse_parses_no_fence
    (parse1 parse2 : string -> JsError + Parsed) (uuid : nat -> string)
    (response : Response) :
  (forall s, includes s "```" = false -> trim s = s ->
             parse1 s = parse2 s) ->
  readResponse parse1 uuid response = readResponse parse2 uuid response.
Proof.
  intros Hagree. unfold readResponse.
  destruct (text response) as [rawText|]; [| done].
  destruct (String.eqb rawText ""); [done |].
  rewrite Hagree; [done | | apply trim_idemp].
  destruct (includes (trim (remove_all "```" (remove_all "```json" rawText)))
              "```") eqn:E; [| done].
  apply trim_includes in E. by rewrite remove_all_fence in E.
Qed.

(** A parser that fails on every text with a fence in it. *)
Definition strict (s : string) : JsError + Parsed :=
  if includes s "```" then inl (Error "Unexpected token") else inr (PArray []).

Lemma readResponse_parses_no_fence_witness :
  readResponse strict (fun _ => "id")
    {| text := Some "````json```json[]``````" |}
  = readResponse (fun _ => inr (PArray [])) (fun _ => "id")
      {| text := Some "````json```json[]``````" |}.
Proof.
  apply (readResponse_parses_no_fence strict (fun _ => inr (PArray []))).
  intros s Hs _. unfold strict. by rewrite Hs.
Defined.

End FenceSpec.
